(** * Waitlist API (src/api/index.js, src/server.js): a shallow embedding

    Strings are JS strings restricted to ASCII code units: a character is an
    [ascii], a string value is a [string], and the string functions the code
    calls ([trim], [toLowerCase], the regular expression of [validateEmail])
    are written over [list ascii]. *)

From Stdlib Require Import String Ascii List ZArith Bool Lia Sorted Permutation.
Import ListNotations.
Set Warnings "-register-all".

Open Scope string_scope.
Open Scope nat_scope.
Open Scope list_scope.

(** ** Characters *)

(** The JS [\s] class and the characters [String.prototype.trim] removes,
    restricted to ASCII: TAB, LF, VT, FF, CR and SPACE. *)
Definition is_space (c : ascii) : bool :=
  let n := nat_of_ascii c in
  ((9 <=? n) && (n <=? 13)) || (n =? 32).

(** [toLowerCase] on one ASCII code unit. *)
Definition lower_char (c : ascii) : ascii :=
  let n := nat_of_ascii c in
  if (65 <=? n) && (n <=? 90) then ascii_of_nat (n + 32) else c.

Definition toLowerCase (s : string) : string :=
  string_of_list_ascii (map lower_char (list_ascii_of_string s)).

Fixpoint trim_start (l : list ascii) : list ascii :=
  match l with
  | [] => []
  | c :: l' => if is_space c then trim_start l' else l
  end.

(** [String.prototype.trim]: strip leading and trailing white space. *)
Definition trim (s : string) : string :=
  string_of_list_ascii (rev (trim_start (rev (trim_start (list_ascii_of_string s))))).

(** ** Regular expressions

    The anchored expression [/^...$/] of [validateEmail] is matched against
    the whole string; the matcher below decides whole-string membership by
    Brzozowski derivatives. *)

Inductive re : Type :=
| RNone
| REps
| RClass (p : ascii -> bool)
| RAlt (r1 r2 : re)
| RCat (r1 r2 : re)
| RStar (r : re).

(** [r+] *)
Definition RPlus (r : re) : re := RCat r (RStar r).

(** A single literal character. *)
Definition RChar (a : ascii) : re := RClass (fun c => Ascii.eqb c a).

Inductive in_re : re -> list ascii -> Prop :=
| in_eps : in_re REps []
| in_class p c : p c = true -> in_re (RClass p) [c]
| in_alt_l r1 r2 w : in_re r1 w -> in_re (RAlt r1 r2) w
| in_alt_r r1 r2 w : in_re r2 w -> in_re (RAlt r1 r2) w
| in_cat r1 r2 w1 w2 : in_re r1 w1 -> in_re r2 w2 -> in_re (RCat r1 r2) (w1 ++ w2)
| in_star_nil r : in_re (RStar r) []
| in_star_app r w1 w2 : in_re r w1 -> in_re (RStar r) w2 -> in_re (RStar r) (w1 ++ w2).

Fixpoint nullable (r : re) : bool :=
  match r with
  | RNone => false
  | REps => true
  | RClass _ => false
  | RAlt r1 r2 => nullable r1 || nullable r2
  | RCat r1 r2 => nullable r1 && nullable r2
  | RStar _ => true
  end.

Fixpoint deriv (c : ascii) (r : re) : re :=
  match r with
  | RNone => RNone
  | REps => RNone
  | RClass p => if p c then REps else RNone
  | RAlt r1 r2 => RAlt (deriv c r1) (deriv c r2)
  | RCat r1 r2 =>
      if nullable r1 then RAlt (RCat (deriv c r1) r2) (deriv c r2)
      else RCat (deriv c r1) r2
  | RStar r1 => RCat (deriv c r1) (RStar r1)
  end.

Fixpoint matches (r : re) (w : list ascii) : bool :=
  match w with
  | [] => nullable r
  | c :: w' => matches (deriv c r) w'
  end.

(** [[^\s@]] *)
Definition not_space_at (c : ascii) : bool :=
  negb (is_space c || Ascii.eqb c "@"%char).

(** [/^[^\s@]+@[^\s@]+\.[^\s@]+$/] *)
Definition emailRegex : re :=
  RCat (RPlus (RClass not_space_at))
    (RCat (RChar "@"%char)
       (RCat (RPlus (RClass not_space_at))
          (RCat (RChar "."%char) (RPlus (RClass not_space_at))))).

(** ** JavaScript values

    The values a JSON request body field can hold (numbers are left out:
    no claim is about them). *)
Inductive js_value : Type :=
| JUndefined
| JNull
| JBool (b : bool)
| JString (s : string)
| JArray (l : list js_value)
| JObject.

(** [String(v)], the conversion [RegExp.prototype.test] applies; an array
    is joined with [","], its [null] and [undefined] elements written as
    the empty string. *)
Fixpoint js_to_string (v : js_value) : string :=
  match v with
  | JUndefined => "undefined"
  | JNull => "null"
  | JBool true => "true"
  | JBool false => "false"
  | JString s => s
  | JArray l =>
      String.concat ","
        (map (fun x => match x with
                       | JUndefined | JNull => ""
                       | _ => js_to_string x
                       end) l)
  | JObject => "[object Object]"
  end.

(** [const validateEmail = (email) => emailRegex.test(email)] *)
Definition validateEmail (email : js_value) : bool :=
  matches emailRegex (list_ascii_of_string (js_to_string email)).

(** [email.trim().toLowerCase()]: a [TypeError] ([None]) when [email] is
    not a string. *)
Definition sanitize (email : js_value) : option string :=
  match email with
  | JString s => Some (toLowerCase (trim s))
  | _ => None
  end.

(** ** Stored documents

    A MongoDB document is an association list of fields; a missing field
    reads as [null]. *)
Inductive bson : Type :=
| BNull
| BString (s : string)
| BDate (t : nat)
| BObjectId (n : nat).

Definition document := list (string * bson).

Definition bson_eqb (a b : bson) : bool :=
  match a, b with
  | BNull, BNull => true
  | BString x, BString y => String.eqb x y
  | BDate x, BDate y => Nat.eqb x y
  | BObjectId x, BObjectId y => Nat.eqb x y
  | _, _ => false
  end.

Fixpoint field (k : string) (d : document) : bson :=
  match d with
  | [] => BNull
  | (k', v) :: d' => if String.eqb k k' then v else field k d'
  end.

(** The collection [waitlist]: its documents in insertion order, the
    counter standing for fresh ObjectIds, and whether the unique index on
    [email] exists. *)
Record store : Type := mkStore {
  docs : list document;
  next_oid : nat;
  email_unique : bool
}.

Definition empty_store : store := mkStore [] 0 false.

(** Errors thrown inside a handler: a MongoDB error with its [code], or a
    JS error without one (a [TypeError]). *)
Inductive js_error : Type :=
| MongoError (code : Z)
| TypeError.

Definition error_code (e : js_error) : option Z :=
  match e with
  | MongoError c => Some c
  | TypeError => None
  end.

Definition email_taken (ds : list document) (v : bson) : bool :=
  existsb (fun d => bson_eqb (field "email" d) v) ds.

(** [collection.findOne({ email })] *)
Definition findOne (s : store) (email : string) : option document :=
  find (fun d => bson_eqb (field "email" d) (BString email)) (docs s).

(** [collection.insertOne(doc)]: the driver adds a fresh [_id]; the unique
    index, when present, refuses a second document with the same [email]
    with the duplicate-key error 11000. *)
Definition insertOne (s : store) (doc : document) : (store * nat) + js_error :=
  if email_unique s && email_taken (docs s) (field "email" doc)
  then inr (MongoError 11000)
  else inl (mkStore (docs s ++ [("_id", BObjectId (next_oid s)) :: doc])
              (S (next_oid s)) (email_unique s), next_oid s).

Fixpoint has_dup_email (ds : list document) : bool :=
  match ds with
  | [] => false
  | d :: ds' => email_taken ds' (field "email" d) || has_dup_email ds'
  end.

(** [createIndex({ email: 1 }, { unique: true })]: the command fails on a
    transient fault, even when the index already exists; otherwise it is
    idempotent, and the build fails on documents already sharing an
    [email]. *)
Definition createIndex (fault : bool) (s : store) : option store :=
  if fault then None
  else if email_unique s then Some s
  else if has_dup_email (docs s) then None
  else Some (mkStore (docs s) (next_oid s) true).

(** [collection.countDocuments()] *)
Definition countDocuments (s : store) : Z := Z.of_nat (length (docs s)).

(** ** JSON responses *)
Inductive json : Type :=
| JsNull
| JsBool (b : bool)
| JsNum (z : Z)
| JsStr (s : string)
| JsTime (t : nat)             (* a [Date], serialised as an ISO string *)
| JsId (n : nat)               (* an ObjectId, serialised as a hex string *)
| JsArr (l : list json)
| JsObj (l : list (string * json)).

Record response : Type := mkResponse {
  status : Z;
  body : json
}.

(** [res.status(code).json({ success: false, message })] *)
Definition fail (code : Z) (message : string) : response :=
  mkResponse code (JsObj [("success", JsBool false); ("message", JsStr message)]).

Definition bson_to_json (v : bson) : json :=
  match v with
  | BNull => JsNull
  | BString s => JsStr s
  | BDate t => JsTime t
  | BObjectId n => JsId n
  end.

Definition doc_to_json (d : document) : json :=
  JsObj (map (fun kv => (fst kv, bson_to_json (snd kv))) d).

(** ** Request handlers (route bodies shared by both entry points) *)

(** A handler body up to an [await] point: it has answered, has thrown, or
    goes on with a value. *)
Inductive outcome (A : Type) : Type :=
| Answer (r : response)
| Throw (e : js_error)
| Continue (a : A).
Arguments Answer {A}.
Arguments Throw {A}.
Arguments Continue {A}.

Definition duplicate_message : string := "This email is already on our waitlist!".

(** The [catch] block of [POST /api/waitlist]. *)
Definition add_catch (e : js_error) : response :=
  if match error_code e with Some c => Z.eqb c 11000 | None => false end
  then fail 409 duplicate_message
  else fail 500 "Internal server error. Please try again later.".

(** [POST /api/waitlist] up to the [insertOne] call: validation,
    sanitising, the existence pre-check on the store [s], and the new
    entry. [ip] and [ua] are [req.ip] and [req.get('User-Agent')]; an
    [undefined] one is stored as [null]. *)
Definition add_precheck (s : store) (email : js_value) (ip ua : option string)
    (now : nat) : outcome (string * document) :=
  if negb (validateEmail email)
  then Answer (fail 400 "Please provide a valid email address")
  else match sanitize email with
       | None => Throw TypeError
       | Some sanitizedEmail =>
           match findOne s sanitizedEmail with
           | Some _ => Answer (fail 409 duplicate_message)
           | None =>
               let opt v := match v with Some x => BString x | None => BNull end in
               Continue (sanitizedEmail,
                         [("email", BString sanitizedEmail);
                          ("createdAt", BDate now);
                          ("source", BString "landing-page");
                          ("ipAddress", opt ip);
                          ("userAgent", opt ua)])
           end
       end.

(** [POST /api/waitlist] from the [insertOne] call on, against the store
    [s] as it is when the insertion reaches it. *)
Definition add_insert (s : store) (sanitizedEmail : string) (doc : document)
    : response * store :=
  match insertOne s doc with
  | inl (s', id) =>
      (mkResponse 201
         (JsObj [("success", JsBool true);
                 ("message", JsStr "Successfully added to waitlist");
                 ("data", JsObj [("id", JsId id); ("email", JsStr sanitizedEmail)])]),
       s')
  | inr e => (add_catch e, s)
  end.

(** The whole handler: the pre-check reads [s_check], the insertion runs on
    [s_insert]. Run on its own, a request has [s_check = s_insert]; the two
    differ when other requests interleave at the [await]s. *)
Definition handle_add (s_check s_insert : store) (email : js_value)
    (ip ua : option string) (now : nat) : response * store :=
  match add_precheck s_check email ip ua now with
  | Answer r => (r, s_insert)
  | Throw e => (add_catch e, s_insert)
  | Continue (se, doc) => add_insert s_insert se doc
  end.

(** [POST /api/waitlist/check] *)
Definition handle_check (s : store) (email : js_value) : response :=
  if negb (validateEmail email)
  then fail 400 "Invalid email format"
  else match sanitize email with
       | None => fail 500 "Failed to check email"
       | Some e =>
           mkResponse 200
             (JsObj [("success", JsBool true);
                     ("exists", JsBool (match findOne s e with Some _ => true | None => false end))])
       end.

(** [GET /api/waitlist/stats] *)
Definition handle_stats (s : store) (now : nat) : response :=
  mkResponse 200
    (JsObj [("success", JsBool true);
            ("data", JsObj [("totalCount", JsNum (countDocuments s)); ("timestamp", JsTime now)])]).

(** The body of [GET /api/health], given the module variable [db]. *)
Definition health_body (db : bool) (now : nat) : response :=
  mkResponse 200
    (JsObj [("status", JsStr "OK");
            ("timestamp", JsTime now);
            ("database", JsStr (if db then "Connected" else "Disconnected"))]).

(** ** [GET /api/admin/waitlist] *)

Definition digit_value (c : ascii) : option Z :=
  let n := nat_of_ascii c in
  if (48 <=? n) && (n <=? 57) then Some (Z.of_nat n - 48)%Z
  else if (97 <=? n) && (n <=? 122) then Some (Z.of_nat n - 87)%Z
  else if (65 <=? n) && (n <=? 90) then Some (Z.of_nat n - 55)%Z
  else None.

(** The longest prefix of digits in [radix]. *)
Fixpoint take_digits (radix : Z) (l : list ascii) : list Z :=
  match l with
  | [] => []
  | c :: l' =>
      match digit_value c with
      | Some d => if (d <? radix)%Z then d :: take_digits radix l' else []
      | None => []
      end
  end.

Definition digits_to_Z (radix : Z) (ds : list Z) : Z :=
  fold_left (fun acc d => acc * radix + d)%Z ds 0%Z.

(** [parseInt(s)] without a radix; [None] is [NaN]. (Values beyond 2^53
    lose precision in JS; the model keeps them exact.) *)
Definition parseInt (s : string) : option Z :=
  let l := trim_start (list_ascii_of_string s) in
  let '(sign, l1) :=
    match l with
    | "-"%char :: r => ((-1)%Z, r)
    | "+"%char :: r => (1%Z, r)
    | _ => (1%Z, l)
    end in
  let '(radix, l2) :=
    match l1 with
    | "0"%char :: x :: r =>
        if Ascii.eqb x "x"%char || Ascii.eqb x "X"%char then (16%Z, r) else (10%Z, l1)
    | _ => (10%Z, l1)
    end in
  match take_digits radix l2 with
  | [] => None
  | ds => Some (sign * digits_to_Z radix ds)%Z
  end.

(** [parseInt(q) || d] for a query parameter [q] ([None] when absent:
    [parseInt(undefined)] is [NaN]); [NaN] and [0] are falsy. *)
Definition int_param_or (q : option string) (d : Z) : Z :=
  match q with
  | None => d
  | Some s =>
      match parseInt s with
      | None => d
      | Some n => if (n =? 0)%Z then d else n
      end
  end.

(** [Math.ceil(a / b)] for [b <> 0]. *)
Definition ceil_div (a b : Z) : Z := (- ((- a) / b))%Z.

(** BSON comparison order: null, then strings, then ObjectIds, then dates. *)
Definition bson_rank (v : bson) : nat :=
  match v with
  | BNull => 0
  | BString _ => 1
  | BObjectId _ => 2
  | BDate _ => 3
  end.

Fixpoint ascii_list_compare (a b : list ascii) : comparison :=
  match a, b with
  | [], [] => Eq
  | [], _ => Lt
  | _, [] => Gt
  | x :: a', y :: b' =>
      match Nat.compare (nat_of_ascii x) (nat_of_ascii y) with
      | Eq => ascii_list_compare a' b'
      | c => c
      end
  end.

Definition bson_compare (a b : bson) : comparison :=
  match a, b with
  | BString x, BString y => ascii_list_compare (list_ascii_of_string x) (list_ascii_of_string y)
  | BObjectId x, BObjectId y => Nat.compare x y
  | BDate x, BDate y => Nat.compare x y
  | _, _ => Nat.compare (bson_rank a) (bson_rank b)
  end.

(** [d] goes before [d'] under the sort [{ [sortBy]: sortOrder }]. *)
Definition sort_le (sortBy : string) (sortOrder : Z) (d d' : document) : bool :=
  let c := bson_compare (field sortBy d) (field sortBy d') in
  if (sortOrder =? 1)%Z
  then match c with Gt => false | _ => true end
  else match c with Lt => false | _ => true end.

Fixpoint insert_by (le : document -> document -> bool) (d : document)
    (l : list document) : list document :=
  match l with
  | [] => [d]
  | x :: l' => if le d x then d :: l else x :: insert_by le d l'
  end.

Definition sort_docs (le : document -> document -> bool) (l : list document)
    : list document :=
  fold_right (insert_by le) [] l.

(** [cursor.limit(n)]: [0] is no limit, a negative [n] returns at most
    [|n|] documents in a single batch. *)
Definition cursor_limit (n : Z) (l : list document) : list document :=
  if (n =? 0)%Z then l else firstn (Z.to_nat (Z.abs n)) l.

(** The inclusion projection [{ email: 1, createdAt: 1, source: 1, _id: 1 }]. *)
Definition projected_fields : list string := ["email"; "createdAt"; "source"; "_id"].

Definition project (d : document) : document :=
  filter (fun kv => existsb (String.eqb (fst kv)) projected_fields) d.

(** The components of a dotted field path. *)
Fixpoint path_components (cur : list ascii) (l : list ascii) : list (list ascii) :=
  match l with
  | [] => [rev cur]
  | c :: l' =>
      if Ascii.eqb c "."%char then rev cur :: path_components [] l'
      else path_components (c :: cur) l'
  end.

(** The check a sort key passes as a field path: no empty component
    (15998), no component starting with [$] other than the DBRef fields
    (16410), no NUL character (16411). [$natural] asks for natural
    order. *)
Definition component_error (c : list ascii) : option Z :=
  match c with
  | [] => Some 15998%Z
  | "$"%char :: _ =>
      if existsb (String.eqb (string_of_list_ascii c)) ["$id"; "$ref"; "$db"]
      then None else Some 16410%Z
  | _ => if existsb (Ascii.eqb (ascii_of_nat 0)) c then Some 16411%Z else None
  end.

Definition sort_key_error (sortBy : string) : option Z :=
  if String.eqb sortBy "$natural" then None
  else fold_right (fun c acc => match component_error c with Some e => Some e | None => acc end)
         None (path_components [] (list_ascii_of_string sortBy)).

(** The order of the query result. [scan] is the order in which the server
    meets the documents: any permutation of the collection, chosen anew by
    each query, so that documents with equal sort keys come back in an
    unspecified order. [$natural] gives insertion order, reversed for
    [-1]. The assignment [sort['__proto__'] = sortOrder] sets no key: the
    query is then unsorted, in scan order. *)
Definition query_order (s : store) (scan : list document) (sortBy : string) (sortOrder : Z)
    : list document :=
  if String.eqb sortBy "__proto__" then scan
  else if String.eqb sortBy "$natural"
  then (if (sortOrder =? 1)%Z then docs s else rev (docs s))
  else sort_docs (sort_le sortBy sortOrder) scan.

(** [collection.find({}).sort(sort).skip(skip).limit(limit).project(...)
    .toArray()]: the server refuses a sort key that is not a valid field
    path, and a negative [skip] (error code 2, BadValue). *)
Definition find_page (s : store) (scan : list document) (sortBy : string)
    (sortOrder skip limit : Z) : list document + js_error :=
  match sort_key_error sortBy with
  | Some c => inr (MongoError c)
  | None =>
      if (skip <? 0)%Z then inr (MongoError 2)
      else inl (map project
                  (cursor_limit limit
                     (skipn (Z.to_nat skip) (query_order s scan sortBy sortOrder))))
  end.

(** [req.query.sortBy || 'createdAt'] *)
Definition sort_field (q : option string) : string :=
  match q with
  | Some x => if String.eqb x "" then "createdAt" else x
  | None => "createdAt"
  end.

(** [req.query.sortOrder === 'asc' ? 1 : -1] *)
Definition sort_direction (q : option string) : Z :=
  match q with
  | Some x => if String.eqb x "asc" then 1%Z else (-1)%Z
  | None => (-1)%Z
  end.

Definition handle_list (s : store) (scan : list document)
    (qpage qlimit qsortBy qsortOrder : option string)
    : response :=
  let page := int_param_or qpage 1 in
  let limit := int_param_or qlimit 50 in
  let sortBy := sort_field qsortBy in
  let sortOrder := sort_direction qsortOrder in
  let maxLimit := Z.min limit 100 in
  let skip := ((page - 1) * maxLimit)%Z in
  let totalCount := countDocuments s in
  let totalPages := ceil_div totalCount maxLimit in
  match find_page s scan sortBy sortOrder skip maxLimit with
  | inr _ => fail 500 "Failed to get waitlist entries"
  | inl entries =>
      mkResponse 200
        (JsObj [("success", JsBool true);
                ("data", JsObj
                   [("entries", JsArr (map doc_to_json entries));
                    ("pagination", JsObj
                       [("currentPage", JsNum page);
                        ("totalPages", JsNum totalPages);
                        ("totalCount", JsNum totalCount);
                        ("hasNextPage", JsBool (page <? totalPages)%Z);
                        ("hasPrevPage", JsBool (1 <? page)%Z);
                        ("limit", JsNum maxLimit)]);
                    ("sorting", JsObj
                       [("sortBy", JsStr sortBy);
                        ("sortOrder", JsStr (if (sortOrder =? 1)%Z then "asc" else "desc"))])])])
  end.

(** A character of the class [[^\s@]]. *)
Definition email_char (c : ascii) : Prop := is_space c = false /\ c <> "@"%char.

(** [validateEmail] on a string, as a language. *)
Definition email_shape (w : list ascii) : Prop :=
  exists l d1 d2, w = l ++ "@"%char :: d1 ++ "."%char :: d2 /\
    l <> [] /\ d1 <> [] /\ d2 <> [] /\
    Forall email_char l /\ Forall email_char d1 /\ Forall email_char d2.

(** The shape the spec gives for a valid address: [local@domain], no white
    space and no [@] in either part, and a [.] somewhere in [domain]. *)
Definition spec_email_shape (w : list ascii) : Prop :=
  exists l d, w = l ++ "@"%char :: d /\ l <> [] /\ d <> [] /\
    Forall email_char l /\ Forall email_char d /\ In "."%char d.

(** ** The on-demand entry point (src/api/index.js)

    The module state is the variable [db] (set together with
    [cachedClient]), the collection, and the add requests that have passed
    their pre-check and wait for their [insertOne] to reach the store. *)
Record system : Type := mkSystem {
  db : bool;
  coll : store;
  in_flight : list (string * document)
}.

Definition init_system : system := mkSystem false empty_store [].

(** What connecting meets: an unreachable store, or a reachable one whose
    index build may hit a transient fault. *)
Inductive conn_env : Type :=
| StoreDown
| StoreUp (index_fault : bool).

Definition db_failed : response := fail 500 "Database connection failed".

(** [ensureDBConnection] with [connectToDatabase]: [db] is assigned as soon
    as the client connects, before [createIndex] is awaited; a failing
    [createIndex] makes [connectToDatabase] throw, but leaves [db] set. *)
Definition ensureDBConnection (sys : system) (env : conn_env) : system * option response :=
  if db sys then (sys, None)
  else match env with
       | StoreDown => (sys, Some db_failed)
       | StoreUp fault =>
           match createIndex fault (coll sys) with
           | Some s' => (mkSystem true s' (in_flight sys), None)
           | None => (mkSystem true (coll sys) (in_flight sys), Some db_failed)
           end
       end.

Inductive request : Type :=
| Health
| Stats
| ListEntries (page limit sortBy sortOrder : option string)
| AddToWaitlist (email : js_value) (ip ua : option string)
| CheckEmail (email : js_value).

(** The route handlers, once [ensureDBConnection] has called [next()].
    The listing is served here with the insertion order as the server's
    scan order; it changes no state, and [handle_list] is verified below
    for every scan order. *)
Definition route (sys : system) (now : nat) (req : request) : system * response :=
  match req with
  | Health => (sys, health_body (db sys) now)
  | Stats => (sys, handle_stats (coll sys) now)
  | ListEntries p l b o => (sys, handle_list (coll sys) (docs (coll sys)) p l b o)
  | AddToWaitlist e ip ua =>
      let '(r, s') := handle_add (coll sys) (coll sys) e ip ua now in
      (mkSystem (db sys) s' (in_flight sys), r)
  | CheckEmail e => (sys, handle_check (coll sys) e)
  end.

(** One request served start to finish. *)
Definition serve (sys : system) (env : conn_env) (now : nat) (req : request)
    : system * response :=
  match ensureDBConnection sys env with
  | (sys', Some r) => (sys', r)
  | (sys', None) => route sys' now req
  end.

(** Requests interleave at their [await]s: besides whole requests, an add
    request can stop after its pre-check and resume at its [insertOne]
    later, after other requests ran. *)
Inductive step : system -> system -> Prop :=
| step_serve sys env now req :
    step sys (fst (serve sys env now req))
| step_add_begin sys sys' env now email ip ua se doc :
    ensureDBConnection sys env = (sys', None) ->
    add_precheck (coll sys') email ip ua now = Continue (se, doc) ->
    step sys (mkSystem (db sys') (coll sys') ((se, doc) :: in_flight sys'))
| step_add_end sys pre se doc post :
    in_flight sys = pre ++ (se, doc) :: post ->
    step sys (mkSystem (db sys) (snd (add_insert (coll sys) se doc)) (pre ++ post)).

Inductive reachable : system -> Prop :=
| reachable_init : reachable init_system
| reachable_step sys sys' : reachable sys -> step sys sys' -> reachable sys'.

(** A stored email is normalised: trimmed and lower-cased. *)
Definition normalized (e : string) : Prop := trim e = e /\ toLowerCase e = e.

(** The storage invariant of the spec: every stored [email] is a normalised
    string, and no two entries share one. *)
Definition waitlist_invariant (s : store) : Prop :=
  NoDup (map (field "email") (docs s)) /\
  Forall (fun d => exists e, field "email" d = BString e /\ normalized e) (docs s).

(** The invariant of interleaved executions: the store invariant, and every
    pending insertion carries a normalised email. *)
Definition system_invariant (sys : system) : Prop :=
  waitlist_invariant (coll sys) /\
  Forall (fun p => field "email" (snd p) = BString (fst p) /\ normalized (fst p)) (in_flight sys).

(** ** The long-running entry point (src/server.js)

    [GET /api/health] has no connection middleware there. *)
Definition server_health (db : bool) (now : nat) : response := health_body db now.

(** ** Reading responses *)
Fixpoint json_get (k : string) (kvs : list (string * json)) : option json :=
  match kvs with
  | [] => None
  | (k', v) :: kvs' => if String.eqb k k' then Some v else json_get k kvs'
  end.

Fixpoint json_path (path : list string) (j : json) : option json :=
  match path with
  | [] => Some j
  | k :: path' =>
      match j with
      | JsObj kvs => match json_get k kvs with
                     | Some j' => json_path path' j'
                     | None => None
                     end
      | _ => None
      end
  end.

(** A sample collection of [n] entries, the [i]-th created at time [i]. *)
Definition sample_entry (i : nat) : document :=
  [("_id", BObjectId i);
   ("email", BString (string_of_list_ascii (repeat "a"%char (S i)) ++ "@x.io")%string);
   ("createdAt", BDate i);
   ("source", BString "landing-page");
   ("ipAddress", BString "10.0.0.1");
   ("userAgent", BString "curl/8.0")].

Definition sample_store (n : nat) : store := mkStore (map sample_entry (seq 0 n)) n true.

(** Requests served one after another, the clock advancing by one each. *)
Fixpoint serve_all (sys : system) (env : conn_env) (now : nat) (reqs : list request) : system :=
  match reqs with
  | [] => sys
  | req :: reqs' => serve_all (fst (serve sys env now req)) env (S now) reqs'
  end.

(** * Proofs *)

(** ** The derivative matcher decides [in_re] *)

Lemma in_re_cat_iff (r1 r2 : re) (w : list ascii) :
  in_re (RCat r1 r2) w <-> exists w1 w2, w = w1 ++ w2 /\ in_re r1 w1 /\ in_re r2 w2.
Proof.
  split.
  - intro H; inversion H; subst; eauto.
  - intros (w1 & w2 & -> & H1 & H2); now constructor.
Qed.

Lemma nullable_spec (r : re) : nullable r = true <-> in_re r [].
Proof.
  split.
  - induction r; simpl; intro H; try discriminate.
    + constructor.
    + apply orb_true_iff in H as [H | H]; [apply in_alt_l | apply in_alt_r]; auto.
    + apply andb_true_iff in H as [H1 H2].
      change (@nil ascii) with (@nil ascii ++ []); constructor; auto.
    + constructor.
  - remember [] as w eqn:Hw; intro H; induction H; simpl; auto.
    + discriminate.
    + rewrite IHin_re; auto.
    + rewrite IHin_re, orb_true_r; auto.
    + apply app_eq_nil in Hw as [-> ->]; rewrite IHin_re1, IHin_re2; auto.
Qed.

Lemma deriv_spec (c : ascii) (r : re) (w : list ascii) :
  in_re (deriv c r) w <-> in_re r (c :: w).
Proof.
  revert w; induction r as [| | p | r1 IH1 r2 IH2 | r1 IH1 r2 IH2 | r IH]; intro w; simpl.
  - split; intro H; inversion H.
  - split; intro H; inversion H.
  - destruct (p c) eqn:Hp; split; intro H.
    + inversion H; subst; now constructor.
    + inversion H; subst; constructor.
    + inversion H.
    + inversion H; subst; congruence.
  - split; intro H; inversion H; subst.
    + apply in_alt_l, IH1; auto.
    + apply in_alt_r, IH2; auto.
    + apply in_alt_l, IH1; auto.
    + apply in_alt_r, IH2; auto.
  - assert (Hcat : in_re (RCat (deriv c r1) r2) w -> in_re (RCat r1 r2) (c :: w)).
    { intros (w1 & w2 & -> & H1 & H2)%in_re_cat_iff.
      change (c :: w1 ++ w2) with ((c :: w1) ++ w2); constructor; auto; apply IH1; auto. }
    assert (Hback : in_re (RCat r1 r2) (c :: w) ->
                    in_re (RCat (deriv c r1) r2) w \/ (in_re r1 [] /\ in_re r2 (c :: w))).
    { intros (w1 & w2 & Hw & H1 & H2)%in_re_cat_iff.
      destruct w1 as [| c' w1]; simpl in Hw; subst.
      - right; auto.
      - injection Hw as -> ->; left; constructor; auto; apply IH1; auto. }
    destruct (nullable r1) eqn:Hn; split; intro H.
    + inversion H; subst; auto.
      change (c :: w) with ([] ++ c :: w); constructor.
      * apply nullable_spec; auto.
      * apply IH2; auto.
    + destruct (Hback H) as [H' | [_ H']].
      * apply in_alt_l; auto.
      * apply in_alt_r, IH2; auto.
    + auto.
    + destruct (Hback H) as [H' | [H' _]]; auto.
      apply nullable_spec in H'; congruence.
  - split.
    + intros (w1 & w2 & -> & H1 & H2)%in_re_cat_iff.
      change (c :: w1 ++ w2) with ((c :: w1) ++ w2); constructor; auto; apply IH; auto.
    + remember (c :: w) as W eqn:HW; remember (RStar r) as R eqn:HR; intro H.
      revert w HW; induction H; intros w' HW; try discriminate.
      injection HR as ->.
      destruct w1 as [| c' w1]; simpl in HW.
      * apply IHin_re2; auto.
      * injection HW as Hc Hw; subst; constructor; auto; apply IH; auto.
Qed.

Lemma matches_spec (r : re) (w : list ascii) : matches r w = true <-> in_re r w.
Proof.
  revert r; induction w as [| c w IH]; intro r; simpl.
  - apply nullable_spec.
  - rewrite IH; apply deriv_spec.
Qed.

Lemma in_re_char_iff (a : ascii) (w : list ascii) : in_re (RChar a) w <-> w = [a].
Proof.
  split.
  - intro H; inversion H; subst; f_equal; apply Ascii.eqb_eq; auto.
  - intros ->; constructor; apply Ascii.eqb_refl.
Qed.

Lemma in_re_star_class_iff (p : ascii -> bool) (w : list ascii) :
  in_re (RStar (RClass p)) w <-> Forall (fun c => p c = true) w.
Proof.
  split.
  - remember (RStar (RClass p)) as R eqn:HR; intro H; induction H; try discriminate.
    + constructor.
    + injection HR as ->; inversion H; subst; simpl; constructor; auto.
  - induction 1 as [| c w Hc _ IH].
    + constructor.
    + change (c :: w) with ([c] ++ w); constructor; auto; constructor; auto.
Qed.

Lemma in_re_plus_class_iff (p : ascii -> bool) (w : list ascii) :
  in_re (RPlus (RClass p)) w <-> w <> [] /\ Forall (fun c => p c = true) w.
Proof.
  unfold RPlus; rewrite in_re_cat_iff; split.
  - intros (w1 & w2 & -> & H1 & H2%in_re_star_class_iff).
    inversion H1; subst; simpl; split; [discriminate | constructor; auto].
  - intros [Hne HF]; destruct w as [| c w]; [contradiction |].
    inversion HF; subst; exists [c], w; repeat split; auto.
    + constructor; auto.
    + apply in_re_star_class_iff; auto.
Qed.

Lemma not_space_at_iff (c : ascii) : not_space_at c = true <-> email_char c.
Proof.
  unfold not_space_at, email_char.
  rewrite negb_true_iff, orb_false_iff, <- Ascii.eqb_neq; tauto.
Qed.

Lemma plus_email_char_iff (w : list ascii) :
  in_re (RPlus (RClass not_space_at)) w <-> w <> [] /\ Forall email_char w.
Proof.
  rewrite in_re_plus_class_iff; split; intros [Hne HF]; split; auto;
    eapply Forall_impl; try eassumption; intros c; apply not_space_at_iff.
Qed.

(** The language of [emailRegex]: [local@d1.d2], three non-empty runs of
    [[^\s@]]. *)
Lemma in_emailRegex_iff (w : list ascii) :
  in_re emailRegex w <->
  exists l d1 d2, w = l ++ "@"%char :: d1 ++ "."%char :: d2 /\
    l <> [] /\ d1 <> [] /\ d2 <> [] /\
    Forall email_char l /\ Forall email_char d1 /\ Forall email_char d2.
Proof.
  unfold emailRegex; split.
  - intros (l & w1 & -> & [Hl HFl]%plus_email_char_iff & H1)%in_re_cat_iff.
    apply in_re_cat_iff in H1 as (a & w2 & -> & Ha%in_re_char_iff & H2); subst a.
    apply in_re_cat_iff in H2 as (d1 & w3 & -> & [Hd1 HF1]%plus_email_char_iff & H3).
    apply in_re_cat_iff in H3 as (b & d2 & -> & Hb%in_re_char_iff & [Hd2 HF2]%plus_email_char_iff).
    subst b; exists l, d1, d2; repeat split; auto.
  - intros (l & d1 & d2 & -> & Hl & Hd1 & Hd2 & HFl & HF1 & HF2).
    apply in_re_cat_iff; exists l, ("@"%char :: d1 ++ "."%char :: d2); repeat split.
    { apply plus_email_char_iff; auto. }
    apply in_re_cat_iff; exists ["@"%char], (d1 ++ "."%char :: d2); repeat split.
    { apply in_re_char_iff; auto. }
    apply in_re_cat_iff; exists d1, ("."%char :: d2); repeat split.
    { apply plus_email_char_iff; auto. }
    apply in_re_cat_iff; exists ["."%char], d2; repeat split.
    + apply in_re_char_iff; auto.
    + apply plus_email_char_iff; auto.
Qed.

Lemma validateEmail_iff (s : string) :
  validateEmail (JString s) = true <-> email_shape (list_ascii_of_string s).
Proof.
  unfold validateEmail; simpl; rewrite matches_spec; apply in_emailRegex_iff.
Qed.

(** A valid address contains no white space. *)
Lemma validateEmail_no_space (s : string) :
  validateEmail (JString s) = true ->
  Forall (fun c => is_space c = false) (list_ascii_of_string s).
Proof.
  intros (l & d1 & d2 & -> & _ & _ & _ & Hl & H1 & H2)%validateEmail_iff.
  assert (Hsub : forall u, Forall email_char u -> Forall (fun c => is_space c = false) u).
  { intros u; apply Forall_impl; intros c [Hc _]; auto. }
  apply Forall_app; split; [apply Hsub; auto |].
  constructor; [reflexivity |].
  apply Forall_app; split; [apply Hsub; auto |].
  constructor; [reflexivity | apply Hsub; auto].
Qed.

(** ** Sanitising a valid address *)

Lemma lower_char_idem (c : ascii) : lower_char (lower_char c) = lower_char c.
Proof. destruct c as [[] [] [] [] [] [] [] []]; reflexivity. Qed.

Lemma is_space_lower_char (c : ascii) : is_space (lower_char c) = is_space c.
Proof. destruct c as [[] [] [] [] [] [] [] []]; reflexivity. Qed.

Lemma trim_start_no_space (l : list ascii) :
  Forall (fun c => is_space c = false) l -> trim_start l = l.
Proof. destruct 1 as [| c l Hc _]; simpl; [reflexivity | now rewrite Hc]. Qed.

Lemma trim_no_space (s : string) :
  Forall (fun c => is_space c = false) (list_ascii_of_string s) -> trim s = s.
Proof.
  intro H; unfold trim.
  rewrite (trim_start_no_space _ H), trim_start_no_space by (apply Forall_rev; auto).
  rewrite rev_involutive; apply string_of_list_ascii_of_string.
Qed.

Lemma toLowerCase_chars (s : string) :
  list_ascii_of_string (toLowerCase s) = map lower_char (list_ascii_of_string s).
Proof. apply list_ascii_of_string_of_list_ascii. Qed.

Lemma toLowerCase_idem (s : string) : toLowerCase (toLowerCase s) = toLowerCase s.
Proof.
  unfold toLowerCase at 1; rewrite toLowerCase_chars, map_map.
  unfold toLowerCase; f_equal; apply map_ext, lower_char_idem.
Qed.

Lemma toLowerCase_no_space (s : string) :
  Forall (fun c => is_space c = false) (list_ascii_of_string s) ->
  Forall (fun c => is_space c = false) (list_ascii_of_string (toLowerCase s)).
Proof.
  intro H; rewrite toLowerCase_chars; apply Forall_map.
  eapply Forall_impl; [| exact H]; intros c Hc; simpl; rewrite is_space_lower_char; auto.
Qed.

(** A valid address needs no trimming; its sanitised form is its lower-case
    form, and that form is normalised. *)
Lemma sanitize_valid (s : string) :
  validateEmail (JString s) = true ->
  sanitize (JString s) = Some (toLowerCase s) /\ normalized (toLowerCase s).
Proof.
  intro Hv; pose proof (validateEmail_no_space s Hv) as Hs.
  simpl; rewrite (trim_no_space s Hs); split; [reflexivity | split].
  - apply trim_no_space, toLowerCase_no_space; auto.
  - apply toLowerCase_idem.
Qed.

(** ** The store *)

Lemma bson_eqb_eq (a b : bson) : bson_eqb a b = true <-> a = b.
Proof.
  destruct a, b; simpl; split; intro H; try discriminate; try congruence.
  - apply String.eqb_eq in H; congruence.
  - injection H as ->; apply String.eqb_refl.
  - apply Nat.eqb_eq in H; congruence.
  - injection H as ->; apply Nat.eqb_refl.
  - apply Nat.eqb_eq in H; congruence.
  - injection H as ->; apply Nat.eqb_refl.
Qed.

Lemma email_taken_spec (ds : list document) (v : bson) :
  email_taken ds v = true <-> In v (map (field "email") ds).
Proof.
  unfold email_taken; rewrite existsb_exists, in_map_iff; split.
  - intros (d & Hd & Heq%bson_eqb_eq); eauto.
  - intros (d & Heq & Hd); exists d; split; auto; apply bson_eqb_eq; auto.
Qed.

Lemma findOne_none (s : store) (e : string) :
  findOne s e = None <-> ~ In (BString e) (map (field "email") (docs s)).
Proof.
  unfold findOne; rewrite <- email_taken_spec; unfold email_taken.
  induction (docs s) as [| d ds IH]; simpl; [split; [intros _ H; discriminate | auto] |].
  destruct (bson_eqb (field "email" d) (BString e)); simpl; [split; congruence | auto].
Qed.

Lemma field_email_insert (n : nat) (doc : document) :
  field "email" (("_id", BObjectId n) :: doc) = field "email" doc.
Proof. reflexivity. Qed.

Lemma add_precheck_continue (s : store) (email : js_value) (ip ua : option string)
    (now : nat) (se : string) (doc : document) :
  add_precheck s email ip ua now = Continue (se, doc) ->
  field "email" doc = BString se /\ normalized se /\ findOne s se = None.
Proof.
  unfold add_precheck.
  destruct (validateEmail email) eqn:Hv; simpl; [| discriminate].
  destruct email as [| | | str | |]; simpl; try discriminate.
  destruct (findOne s (toLowerCase (trim str))) eqn:Hf; [discriminate |].
  intro H; injection H as <- <-.
  destruct (sanitize_valid str Hv) as [Hsan Hn]; simpl in Hsan.
  injection Hsan as Heq; rewrite Heq in *; auto.
Qed.

(** An insertion keeps the invariant when the pre-check saw the current
    store, or when the unique index guards it. *)
Lemma add_insert_preserves (s : store) (se : string) (doc : document) :
  waitlist_invariant s -> field "email" doc = BString se -> normalized se ->
  (findOne s se = None \/ email_unique s = true) ->
  waitlist_invariant (snd (add_insert s se doc)).
Proof.
  intros [Hnd Hall] Hf Hn Hguard; unfold add_insert, insertOne.
  destruct (email_unique s && email_taken (docs s) (field "email" doc)) eqn:Ht;
    simpl; [split; auto |].
  assert (Hnot : ~ In (BString se) (map (field "email") (docs s))).
  { destruct Hguard as [Hnone | Hu].
    - apply findOne_none; auto.
    - rewrite Hu, Hf in Ht; simpl in Ht; rewrite <- email_taken_spec, Ht; discriminate. }
  split; cbn [docs].
  - rewrite map_app; simpl; rewrite Hf.
    apply NoDup_app; [auto | constructor; [intros [] | constructor] |].
    intros a Ha [<- | []]; contradiction.
  - apply Forall_app; split; auto; constructor; auto.
    exists se; simpl; auto.
Qed.

Lemma handle_add_preserves (s_check s_insert : store) (email : js_value)
    (ip ua : option string) (now : nat) :
  waitlist_invariant s_insert ->
  (s_check = s_insert \/ email_unique s_insert = true) ->
  waitlist_invariant (snd (handle_add s_check s_insert email ip ua now)).
Proof.
  intros Hinv Hguard; unfold handle_add.
  destruct (add_precheck s_check email ip ua now) as [r | e | [se doc]] eqn:Hp; simpl; auto.
  apply add_precheck_continue in Hp as (Hf & Hn & Hnone).
  apply add_insert_preserves; auto.
  destruct Hguard as [<- | Hu]; auto.
Qed.

Lemma createIndex_docs (fault : bool) (s s' : store) :
  createIndex fault s = Some s' -> docs s' = docs s /\ email_unique s' = true.
Proof.
  unfold createIndex; destruct fault; [discriminate |].
  destruct (email_unique s) eqn:Hu.
  - intro H; injection H as <-; auto.
  - destruct (has_dup_email (docs s)); [discriminate |].
    intro H; injection H as <-; auto.
Qed.

Lemma ensureDBConnection_coll (sys sys' : system) (env : conn_env) (r : option response) :
  ensureDBConnection sys env = (sys', r) ->
  docs (coll sys') = docs (coll sys) /\ in_flight sys' = in_flight sys /\
  (email_unique (coll sys) = true -> email_unique (coll sys') = true).
Proof.
  unfold ensureDBConnection; destruct (db sys).
  - intro H; injection H as <- _; auto.
  - destruct env as [| fault].
    + intro H; injection H as <- _; auto.
    + destruct (createIndex fault (coll sys)) as [s' |] eqn:Hc;
        intro H; injection H as <- _; simpl; auto.
      apply createIndex_docs in Hc as [-> Hu]; auto.
Qed.

Lemma waitlist_invariant_docs (s s' : store) :
  docs s' = docs s -> waitlist_invariant s -> waitlist_invariant s'.
Proof. unfold waitlist_invariant; intros ->; auto. Qed.

(** Requests served one at a time keep the invariant, whether or not the
    unique index exists: the pre-check sees the store the insertion
    changes. *)
Lemma serve_preserves_invariant (sys : system) (env : conn_env) (now : nat) (req : request) :
  waitlist_invariant (coll sys) ->
  waitlist_invariant (coll (fst (serve sys env now req))).
Proof.
  intro Hinv; unfold serve.
  destruct (ensureDBConnection sys env) as [sys' [r |]] eqn:He;
    apply ensureDBConnection_coll in He as (Hd & _ & _); simpl;
    apply (waitlist_invariant_docs _ _ Hd) in Hinv; auto.
  destruct req; simpl; auto.
  destruct (handle_add (coll sys') (coll sys') email ip ua now) as [r s'] eqn:Ha; simpl.
  change s' with (snd (r, s')); rewrite <- Ha; apply handle_add_preserves; auto.
Qed.

(** With the unique index in place, every interleaving keeps the
    invariant: racing insertions of one address end in error 11000. *)
Lemma step_preserves_with_index (sys sys' : system) :
  system_invariant sys -> email_unique (coll sys) = true -> step sys sys' ->
  system_invariant sys' /\ email_unique (coll sys') = true.
Proof.
  intros [Hinv Hfl] Hu Hstep; destruct Hstep as
    [sys env now req | sys sys1 env now email ip ua se doc He Hp | sys pre se doc post Hin].
  - unfold serve.
    destruct (ensureDBConnection sys env) as [sys1 r] eqn:He.
    pose proof He as He'; apply ensureDBConnection_coll in He' as (Hd & Hf & Hu1).
    assert (Hinv1 : waitlist_invariant (coll sys1)) by (eapply waitlist_invariant_docs; eauto).
    destruct r as [r |]; simpl.
    { split; [split; [auto | rewrite Hf; auto] | auto]. }
    destruct req; simpl; try solve [split; [split; [auto | rewrite Hf; auto] | auto]].
    pose proof (handle_add_preserves (coll sys1) (coll sys1) email ip ua now Hinv1
                  (or_introl eq_refl)) as Hp.
    assert (Hu' : email_unique (snd (handle_add (coll sys1) (coll sys1) email ip ua now))
                  = email_unique (coll sys1)).
    { unfold handle_add.
      destruct (add_precheck (coll sys1) email ip ua now) as [? | ? | [se doc]]; simpl; auto.
      unfold add_insert, insertOne.
      destruct (email_unique (coll sys1) && email_taken (docs (coll sys1)) (field "email" doc));
        reflexivity. }
    destruct (handle_add (coll sys1) (coll sys1) email ip ua now) as [r s']; simpl in *.
    split; [split |]; auto.
    + rewrite Hf; auto.
    + rewrite Hu'; auto.
  - pose proof He as He'; apply ensureDBConnection_coll in He' as (Hd & Hf & Hu1).
    apply add_precheck_continue in Hp as (Hfe & Hn & _).
    simpl; split; [split |]; auto.
    + eapply waitlist_invariant_docs; eauto.
    + constructor; [auto | rewrite Hf; auto].
  - rewrite Hin in Hfl; apply Forall_app in Hfl as [Hpre Hpost]; inversion Hpost as [| ? ? [Hfe Hn] Hpost']; subst.
    assert (Hu' : email_unique (snd (add_insert (coll sys) se doc)) = email_unique (coll sys)).
    { unfold add_insert, insertOne.
      destruct (email_unique (coll sys) && email_taken (docs (coll sys)) (field "email" doc));
        reflexivity. }
    simpl; split; [split |].
    + apply add_insert_preserves; auto.
    + apply Forall_app; auto.
    + rewrite Hu'; auto.
Qed.

(** ** Adding to the waitlist *)

Lemma add_precheck_new (s : store) (e : string) (ip ua : option string) (now : nat) :
  validateEmail (JString e) = true -> findOne s (toLowerCase e) = None ->
  exists doc, add_precheck s (JString e) ip ua now = Continue (toLowerCase e, doc) /\
              field "email" doc = BString (toLowerCase e).
Proof.
  intros Hv Hf; destruct (sanitize_valid e Hv) as [Hs _]; simpl in Hs.
  injection Hs as Hs; unfold add_precheck; rewrite Hv; simpl; rewrite Hs, Hf.
  eexists; split; reflexivity.
Qed.

Lemma add_precheck_found (s : store) (email : js_value) (se : string) (ip ua : option string)
    (now : nat) :
  validateEmail email = true -> sanitize email = Some se -> findOne s se <> None ->
  add_precheck s email ip ua now = Answer (fail 409 duplicate_message).
Proof.
  intros Hv Hs Hf; unfold add_precheck; rewrite Hv, Hs; simpl.
  destruct (findOne s se); [reflexivity | congruence].
Qed.

Lemma findOne_inserted (s : store) (se : string) (doc : document) (n : nat) :
  field "email" doc = BString se ->
  findOne (mkStore (docs s ++ [("_id", BObjectId n) :: doc]) (S n) (email_unique s)) se <> None.
Proof.
  intros Hf Hnone; apply findOne_none in Hnone; apply Hnone; simpl.
  rewrite map_app; apply in_or_app; right; simpl; rewrite Hf; left; reflexivity.
Qed.

Lemma serve_connected (sys : system) (env : conn_env) (now : nat) (req : request) :
  db sys = true -> serve sys env now req = route sys now req.
Proof. intro Hdb; unfold serve, ensureDBConnection; rewrite Hdb; reflexivity. Qed.

(** ** The interleaving that stores an address twice *)

(** C1 (code_bug). After a connection whose [createIndex] failed, [db] stays
    set and the index is never built; two add requests for [a@b.com] that
    both pass their pre-check before either inserts then store the address
    twice: a reachable state breaks the invariant that each normalised
    email is stored at most once. *)
Theorem duplicate_email_reachable :
  exists sys, reachable sys /\ email_unique (coll sys) = false /\
    map (field "email") (docs (coll sys)) = [BString "a@b.com"; BString "a@b.com"] /\
    ~ waitlist_invariant (coll sys).
Proof.
  set (doc := [("email", BString "a@b.com"); ("createdAt", BDate 1);
               ("source", BString "landing-page"); ("ipAddress", BNull); ("userAgent", BNull)]).
  set (p := ("a@b.com", doc)).
  (* the first request: connected, but the index build failed *)
  assert (R1 : reachable (mkSystem true empty_store [])).
  { exact (reachable_step _ _ reachable_init (step_serve init_system (StoreUp true) 0 Health)). }
  (* two add requests pass their pre-check on the empty collection *)
  assert (R2 : reachable (mkSystem true empty_store [p])).
  { exact (reachable_step _ _ R1
             (step_add_begin (mkSystem true empty_store []) (mkSystem true empty_store [])
                (StoreUp false) 1 (JString "a@b.com") None None "a@b.com" doc eq_refl eq_refl)). }
  assert (R3 : reachable (mkSystem true empty_store [p; p])).
  { exact (reachable_step _ _ R2
             (step_add_begin (mkSystem true empty_store [p]) (mkSystem true empty_store [p])
                (StoreUp false) 1 (JString "a@b.com") None None "a@b.com" doc eq_refl eq_refl)). }
  (* both insertions reach the store *)
  pose proof (reachable_step _ _ R3
                (step_add_end (mkSystem true empty_store [p; p]) [] "a@b.com" doc [p] eq_refl)) as R4.
  simpl in R4.
  pose proof (reachable_step _ _ R4
                (step_add_end (mkSystem true (mkStore [("_id", BObjectId 0) :: doc] 1 false) [p])
                   [] "a@b.com" doc [] eq_refl)) as R5.
  eexists; split; [exact R5 |].
  split; [reflexivity | split; [reflexivity |]].
  intros [Hnd _]; simpl in Hnd.
  inversion Hnd as [| x l Hnot _]; apply Hnot; left; reflexivity.
Qed.

(** C2 (corrected). Once the store is connected, two add requests whose
    addresses pass validation and sanitise to the same form, on a
    collection without that form, answer 201 and then 409; an address with
    white space anywhere, such as ["A@B.com "], fails validation: 400, the
    collection unchanged. *)
Theorem add_same_address_twice (sys : system) (env1 env2 : conn_env) (t1 t2 : nat)
    (e1 e2 : string) (ip1 ua1 ip2 ua2 : option string) :
  db sys = true ->
  validateEmail (JString e1) = true -> validateEmail (JString e2) = true ->
  toLowerCase (trim e1) = toLowerCase (trim e2) ->
  findOne (coll sys) (toLowerCase (trim e1)) = None ->
  (let '(sys1, r1) := serve sys env1 t1 (AddToWaitlist (JString e1) ip1 ua1) in
   status r1 = 201%Z /\
   snd (serve sys1 env2 t2 (AddToWaitlist (JString e2) ip2 ua2)) = fail 409 duplicate_message) /\
  (forall s c ip ua t,
     In c (list_ascii_of_string s) -> is_space c = true ->
     serve sys env1 t (AddToWaitlist (JString s) ip ua) =
       (sys, fail 400 "Please provide a valid email address")).
Proof.
  intros Hdb Hv1 Hv2 Heq Hnew.
  rewrite (trim_no_space e1 (validateEmail_no_space e1 Hv1)) in Heq, Hnew.
  rewrite (trim_no_space e2 (validateEmail_no_space e2 Hv2)) in Heq.
  split.
  - rewrite serve_connected by exact Hdb; unfold route, handle_add.
    destruct (add_precheck_new (coll sys) e1 ip1 ua1 t1 Hv1 Hnew) as (doc & Hp & Hf).
    rewrite Hp; unfold add_insert, insertOne.
    rewrite Hf.
    assert (Ht : email_taken (docs (coll sys)) (BString (toLowerCase e1)) = false).
    { apply not_true_iff_false; rewrite email_taken_spec; apply findOne_none; auto. }
    rewrite Ht, andb_false_r; simpl; split; [reflexivity |].
    rewrite serve_connected by exact Hdb; unfold route, handle_add; simpl.
    rewrite (add_precheck_found _ (JString e2) (toLowerCase e1) ip2 ua2 t2 Hv2).
    + reflexivity.
    + destruct (sanitize_valid e2 Hv2) as [Hs _]; rewrite Hs, Heq; reflexivity.
    + apply (findOne_inserted (coll sys)); exact Hf.
  - intros s c ip ua t Hin Hsp.
    assert (Hv : validateEmail (JString s) = false).
    { apply not_true_iff_false; intro Hv.
      pose proof (validateEmail_no_space s Hv) as Hns; rewrite Forall_forall in Hns.
      rewrite (Hns c Hin) in Hsp; discriminate. }
    rewrite serve_connected by exact Hdb; unfold route, handle_add, add_precheck.
    rewrite Hv; destruct sys; reflexivity.
Qed.

Lemma add_same_address_twice_witness :
  (db (mkSystem true empty_store []) = true /\
   validateEmail (JString "A@B.com") = true /\ validateEmail (JString "a@b.com") = true /\
   toLowerCase (trim "A@B.com") = toLowerCase (trim "a@b.com") /\
   findOne (coll (mkSystem true empty_store [])) (toLowerCase (trim "A@B.com")) = None) /\
  ((let '(sys1, r1) := serve (mkSystem true empty_store []) (StoreUp false) 1
                              (AddToWaitlist (JString "A@B.com") None None) in
    status r1 = 201%Z /\
    snd (serve sys1 (StoreUp false) 2 (AddToWaitlist (JString "a@b.com") None None))
      = fail 409 duplicate_message) /\
   (forall s c ip ua t,
      In c (list_ascii_of_string s) -> is_space c = true ->
      serve (mkSystem true empty_store []) (StoreUp false) t (AddToWaitlist (JString s) ip ua) =
        (mkSystem true empty_store [], fail 400 "Please provide a valid email address"))).
Proof.
  split; [repeat split; vm_compute; reflexivity |].
  apply (add_same_address_twice (mkSystem true empty_store []) (StoreUp false) (StoreUp false)
           1 2 "A@B.com" "a@b.com" None None None None);
    vm_compute; reflexivity.
Defined.

(** C2: the spec's own example. From an empty connected collection,
    ["a@b.com"] is added (201) and ["A@B.com "] then answers 400, not
    409. *)
Lemma trailing_space_not_409 :
  let sys0 := mkSystem true empty_store [] in
  let '(sys1, r1) := serve sys0 (StoreUp false) 1 (AddToWaitlist (JString "a@b.com") None None) in
  toLowerCase (trim "A@B.com ") = toLowerCase (trim "a@b.com") /\
  status r1 = 201%Z /\
  snd (serve sys1 (StoreUp false) 2 (AddToWaitlist (JString "A@B.com ") None None))
    = fail 400 "Please provide a valid email address".
Proof. vm_compute; repeat split; reflexivity. Qed.

(** C3 (confirmed). A duplicate is answered with the same response, 409
    and the same body, whether the pre-check finds it or, the pre-check
    having missed it, the unique index refuses the insertion with the
    duplicate-key error 11000. *)
Theorem duplicate_same_response (s_check s_insert : store) (email : js_value)
    (ip ua : option string) (now : nat) (se : string) :
  validateEmail email = true -> sanitize email = Some se ->
  (findOne s_check se <> None \/ (email_unique s_insert = true /\ findOne s_insert se <> None)) ->
  fst (handle_add s_check s_insert email ip ua now) = fail 409 duplicate_message /\
  add_catch (MongoError 11000) = fail 409 duplicate_message.
Proof.
  intros Hv Hs Hdup; split; [| reflexivity].
  unfold handle_add.
  destruct (findOne s_check se) as [d |] eqn:Hc.
  - rewrite (add_precheck_found s_check email se ip ua now Hv Hs); [reflexivity | congruence].
  - destruct Hdup as [Hdup | [Hu Hi]]; [congruence |].
    destruct email as [| | | str | |]; try discriminate.
    destruct (sanitize_valid str Hv) as [Hs' [_ Hlow]]; rewrite Hs in Hs'; injection Hs' as ->.
    unfold add_precheck; rewrite Hv; simpl.
    rewrite (trim_no_space str (validateEmail_no_space str Hv)) in *.
    rewrite Hc; unfold add_insert, insertOne; simpl.
    assert (Ht : email_taken (docs s_insert) (BString (toLowerCase str)) = true).
    { destruct (email_taken (docs s_insert) (BString (toLowerCase str))) eqn:E; [reflexivity |].
      exfalso; apply Hi, findOne_none; rewrite <- email_taken_spec, E; discriminate. }
    rewrite Hu, Ht; reflexivity.
Qed.

(** The race: the pre-check read the empty collection, the insertion meets
    the indexed one that already holds the address. *)
Lemma duplicate_same_response_witness :
  let s_insert := mkStore [[("_id", BObjectId 0); ("email", BString "a@b.com")]] 1 true in
  (validateEmail (JString "a@b.com") = true /\ sanitize (JString "a@b.com") = Some "a@b.com") /\
  fst (handle_add (mkStore [] 1 true) s_insert (JString "a@b.com") None None 5)
    = fail 409 duplicate_message /\
  add_catch (MongoError 11000) = fail 409 duplicate_message.
Proof.
  intro s_insert; split; [split; vm_compute; reflexivity |].
  apply (duplicate_same_response (mkStore [] 1 true) s_insert (JString "a@b.com") None None 5 "a@b.com").
  - vm_compute; reflexivity.
  - vm_compute; reflexivity.
  - right; split; [reflexivity | vm_compute; discriminate].
Defined.

(** ** [validateEmail] *)

(** C4 (corrected). A string is valid exactly when it reads [l@d1.d2] with
    [l], [d1] and [d2] non-empty runs of characters that are neither white
    space nor [@]: the domain needs a [.] with at least one character on
    each side of it. *)
Theorem validateEmail_exact_shape (s : string) :
  validateEmail (JString s) = true <->
  exists l d1 d2, list_ascii_of_string s = l ++ "@"%char :: d1 ++ "."%char :: d2 /\
    l <> [] /\ d1 <> [] /\ d2 <> [] /\
    Forall email_char l /\ Forall email_char d1 /\ Forall email_char d2.
Proof. apply validateEmail_iff. Qed.

Lemma Forall_email_char_of (l : list ascii) :
  forallb not_space_at l = true -> Forall email_char l.
Proof.
  intro H; apply Forall_forall; intros c Hc; apply not_space_at_iff.
  revert c Hc; apply forallb_forall; exact H.
Qed.

(** C4: ["a@.com"] has the shape the claim describes (one [@], no white
    space, a [.] in the domain) but [validateEmail] rejects it. *)
Lemma validateEmail_rejects_dot_first_domain :
  spec_email_shape (list_ascii_of_string "a@.com") /\
  validateEmail (JString "a@.com") = false.
Proof.
  split; [| vm_compute; reflexivity].
  exists ["a"%char], ["."%char; "c"%char; "o"%char; "m"%char].
  repeat split; try discriminate.
  - apply Forall_email_char_of; reflexivity.
  - apply Forall_email_char_of; reflexivity.
  - left; reflexivity.
Qed.

(** ** Listing *)

Lemma ascii_list_compare_antisym (a b : list ascii) :
  ascii_list_compare b a = CompOpp (ascii_list_compare a b).
Proof.
  revert b; induction a as [| x a IH]; intros [| y b]; simpl; try reflexivity.
  rewrite (Nat.compare_antisym (nat_of_ascii x) (nat_of_ascii y)).
  destruct (Nat.compare (nat_of_ascii x) (nat_of_ascii y)); simpl; [apply IH | reflexivity | reflexivity].
Qed.

Lemma bson_compare_antisym (a b : bson) : bson_compare b a = CompOpp (bson_compare a b).
Proof.
  destruct a, b; simpl; try reflexivity;
    try apply ascii_list_compare_antisym; apply Nat.compare_antisym.
Qed.

Lemma sort_le_total (b : string) (o : Z) (d d' : document) :
  sort_le b o d d' = false -> sort_le b o d' d = true.
Proof.
  unfold sort_le; rewrite (bson_compare_antisym (field b d) (field b d')).
  destruct ((o =? 1)%Z), (bson_compare (field b d) (field b d')); simpl; congruence.
Qed.

Lemma insert_by_perm (le : document -> document -> bool) (d : document) (l : list document) :
  Permutation (insert_by le d l) (d :: l).
Proof.
  induction l as [| x l IH]; simpl; [auto |].
  destruct (le d x); [auto |].
  apply perm_trans with (x :: d :: l); [auto | apply perm_swap].
Qed.

Lemma sort_docs_perm (le : document -> document -> bool) (l : list document) :
  Permutation (sort_docs le l) l.
Proof.
  induction l as [| x l IH]; simpl; [auto |].
  unfold sort_docs in *; simpl.
  apply perm_trans with (x :: fold_right (insert_by le) [] l); auto using insert_by_perm.
Qed.

Section SortedInsert.
Variable le : document -> document -> bool.
Hypothesis le_total : forall d d', le d d' = false -> le d' d = true.

Lemma insert_by_sorted (d : document) (l : list document) :
  Sorted (fun x y => le x y = true) l -> Sorted (fun x y => le x y = true) (insert_by le d l).
Proof.
  induction l as [| x l IH]; intro Hs; simpl; [auto |].
  destruct (le d x) eqn:Hdx; [constructor; auto |].
  apply Sorted_inv in Hs as [Hl Hhd].
  constructor; [apply IH; exact Hl |].
  destruct l as [| y l']; simpl.
  - constructor; apply le_total; exact Hdx.
  - destruct (le d y); constructor; [apply le_total; exact Hdx |].
    inversion Hhd; auto.
Qed.

Lemma sort_docs_sorted (l : list document) :
  Sorted (fun x y => le x y = true) (sort_docs le l).
Proof.
  induction l as [| x l IH]; simpl; [constructor |].
  apply insert_by_sorted; exact IH.
Qed.
End SortedInsert.

Lemma query_order_perm (s : store) (scan : list document) (b : string) (o : Z) :
  Permutation scan (docs s) -> Permutation (query_order s scan b o) (docs s).
Proof.
  intro Hp; unfold query_order.
  destruct (String.eqb b "__proto__"); [exact Hp |].
  destruct (String.eqb b "$natural"); [destruct ((o =? 1)%Z); [auto | apply Permutation_sym, Permutation_rev] |].
  eapply perm_trans; [apply sort_docs_perm | exact Hp].
Qed.

Lemma query_order_sorted (s : store) (scan : list document) (b : string) (o : Z) :
  b <> "__proto__" -> b <> "$natural" ->
  query_order s scan b o = sort_docs (sort_le b o) scan /\
  Sorted (fun d d' => sort_le b o d d' = true) (query_order s scan b o).
Proof.
  intros Hp Hn; unfold query_order.
  replace (String.eqb b "__proto__") with false by (symmetry; apply String.eqb_neq; exact Hp).
  replace (String.eqb b "$natural") with false by (symmetry; apply String.eqb_neq; exact Hn).
  split; [reflexivity |].
  apply sort_docs_sorted; intros d d'; apply sort_le_total.
Qed.

Lemma find_page_ok (s : store) (scan : list document) (b : string) (o skip lim : Z) :
  sort_key_error b = None -> (0 <= skip)%Z -> (0 < lim)%Z ->
  find_page s scan b o skip lim =
  inl (map project (firstn (Z.to_nat lim) (skipn (Z.to_nat skip) (query_order s scan b o)))).
Proof.
  intros Hk Hs Hl; unfold find_page, cursor_limit; rewrite Hk.
  replace ((skip <? 0)%Z) with false by (symmetry; apply Z.ltb_ge; lia).
  replace ((lim =? 0)%Z) with false by (symmetry; apply Z.eqb_neq; lia).
  rewrite Z.abs_eq by lia; reflexivity.
Qed.

(** C5 (corrected). For a limit that is absent, unparseable or zero (50 by
    default) or parses to a positive number, and a page that is absent,
    unparseable, zero or positive: when the store accepts the sort key,
    the page size is that limit clamped to 100, at most 100 entries come
    back, and they are the query's order after skipping
    [(page - 1) * pageSize] entries; that order is the collection
    reordered, sorted by the requested field and direction (ties in the
    server's order) unless the key is [$natural] or [__proto__]. A sort
    key the store refuses answers 500. *)
Theorem list_page_window (s : store) (scan : list document) (qp ql qb qo : option string) :
  (0 < int_param_or ql 50)%Z -> (0 < int_param_or qp 1)%Z ->
  let lim := Z.min (int_param_or ql 50) 100 in
  let order := query_order s scan (sort_field qb) (sort_direction qo) in
  let window := firstn (Z.to_nat lim) (skipn (Z.to_nat ((int_param_or qp 1 - 1) * lim)) order) in
  (sort_key_error (sort_field qb) = None ->
   json_path ["data"; "pagination"; "limit"] (body (handle_list s scan qp ql qb qo))
     = Some (JsNum lim) /\
   json_path ["data"; "entries"] (body (handle_list s scan qp ql qb qo))
     = Some (JsArr (map doc_to_json (map project window))) /\
   (lim <= 100)%Z /\ length window <= 100) /\
  (sort_key_error (sort_field qb) <> None ->
   handle_list s scan qp ql qb qo = fail 500 "Failed to get waitlist entries") /\
  (Permutation scan (docs s) -> Permutation order (docs s)) /\
  (sort_field qb <> "__proto__" -> sort_field qb <> "$natural" ->
   Sorted (fun d d' => sort_le (sort_field qb) (sort_direction qo) d d' = true) order).
Proof.
  intros Hl Hp lim order window.
  assert (Hlim : (0 < lim)%Z) by (unfold lim; lia).
  split; [| split; [| split]].
  - intro Hk; unfold handle_list; fold lim.
    rewrite find_page_ok by (first [exact Hk | try apply Z.mul_nonneg_nonneg; lia]).
    split; [reflexivity | split; [reflexivity | split]].
    + unfold lim; lia.
    + unfold window; rewrite length_firstn; apply Nat.le_trans with (Z.to_nat lim); [lia |].
      unfold lim; lia.
  - intro Hk; unfold handle_list, find_page.
    destruct (sort_key_error (sort_field qb)); [reflexivity | contradiction].
  - apply query_order_perm.
  - intros H1 H2; exact (proj2 (query_order_sorted s scan _ _ H1 H2)).
Qed.

Lemma list_page_window_witness :
  ((0 < int_param_or (Some "10") 50)%Z /\ (0 < int_param_or (Some "2") 1)%Z) /\
  sort_key_error (sort_field (Some "createdAt")) = None /\
  json_path ["data"; "entries"]
    (body (handle_list (sample_store 25) (rev (docs (sample_store 25)))
             (Some "2") (Some "10") (Some "createdAt") (Some "asc")))
  = Some (JsArr (map doc_to_json (map project
      (firstn 10 (skipn 10 (query_order (sample_store 25) (rev (docs (sample_store 25)))
                                 "createdAt" 1)))))) /\
  handle_list (sample_store 25) (docs (sample_store 25)) (Some "2") (Some "10") (Some "a..b") None
    = fail 500 "Failed to get waitlist entries".
Proof.
  assert (Hl : (0 < int_param_or (Some "10") 50)%Z) by (vm_compute; reflexivity).
  assert (Hp : (0 < int_param_or (Some "2") 1)%Z) by (vm_compute; reflexivity).
  assert (Hk : sort_key_error (sort_field (Some "createdAt")) = None) by (vm_compute; reflexivity).
  split; [split; [exact Hl | exact Hp] | split; [exact Hk | split]].
  - exact (proj1 (proj2 (proj1 (list_page_window (sample_store 25) (rev (docs (sample_store 25)))
                                  (Some "2") (Some "10") (Some "createdAt") (Some "asc") Hl Hp) Hk))).
  - apply (list_page_window (sample_store 25) (docs (sample_store 25))
             (Some "2") (Some "10") (Some "a..b") None Hl Hp); vm_compute; discriminate.
Defined.

(** [page=2, limit=10] on 25 entries sorted by creation time returns the
    entries created at times 10 to 19; [limit=1000] returns 100 of 150. *)
Example list_page_2_limit_10 :
  match json_path ["data"; "entries"]
          (body (handle_list (sample_store 25) (docs (sample_store 25))
                   (Some "2") (Some "10") (Some "createdAt") (Some "asc"))) with
  | Some (JsArr es) => map (json_path ["createdAt"]) es = map (fun t => Some (JsTime t)) (seq 10 10)
  | _ => False
  end.
Proof. vm_compute; reflexivity. Qed.

Example list_limit_1000 :
  match json_path ["data"; "entries"]
          (body (handle_list (sample_store 150) (docs (sample_store 150)) None (Some "1000") None None)) with
  | Some (JsArr es) => length es = 100
  | _ => False
  end.
Proof. vm_compute; reflexivity. Qed.

(** C5: [limit=0] gives page size 50, not 0; [limit=-1000] gives a
    negative page size and, as [cursor.limit] takes a negative limit as
    its absolute value, returns all 101 entries of a 101-entry
    collection. *)
Lemma list_limit_not_clamped :
  json_path ["data"; "pagination"; "limit"]
    (body (handle_list (sample_store 3) (docs (sample_store 3)) None (Some "0") None None))
    = Some (JsNum 50) /\
  Z.min 0 100 = 0%Z /\
  match json_path ["data"; "entries"]
          (body (handle_list (sample_store 101) (docs (sample_store 101)) None (Some "-1000") None None)) with
  | Some (JsArr es) => length es = 101
  | _ => False
  end.
Proof. vm_compute; repeat split; reflexivity. Qed.

(** C6 (corrected). An absent, unparseable or zero page answers exactly as
    page 1; a negative page is kept, its offset [(page - 1) * pageSize] is
    negative under a positive page size, and the refused query answers
    500. *)
Theorem list_page_below_one (s : store) (scan : list document) (qp ql qb qo : option string) :
  ((match qp with None => True | Some x => parseInt x = None \/ parseInt x = Some 0%Z end) ->
   handle_list s scan qp ql qb qo = handle_list s scan (Some "1") ql qb qo) /\
  (forall x n, qp = Some x -> parseInt x = Some n -> (n < 0)%Z -> (0 < int_param_or ql 50)%Z ->
   handle_list s scan qp ql qb qo = fail 500 "Failed to get waitlist entries").
Proof.
  split.
  - intro H; assert (Hp : int_param_or qp 1 = 1%Z).
    { destruct qp as [x |]; simpl; [| reflexivity].
      destruct H as [-> | ->]; reflexivity. }
    unfold handle_list; rewrite Hp; reflexivity.
  - intros x n -> Hx Hn Hl.
    assert (Hp : int_param_or (Some x) 1 = n).
    { simpl; rewrite Hx; destruct (n =? 0)%Z eqn:E; [apply Z.eqb_eq in E; lia | reflexivity]. }
    unfold handle_list, find_page; rewrite Hp.
    replace ((((n - 1) * Z.min (int_param_or ql 50) 100) <? 0)%Z) with true
      by (symmetry; apply Z.ltb_lt; nia).
    destruct (sort_key_error (sort_field qb)); reflexivity.
Qed.

Lemma list_page_below_one_witness :
  (True -> handle_list (sample_store 3) (docs (sample_store 3)) None None None None
           = handle_list (sample_store 3) (docs (sample_store 3)) (Some "1") None None None) /\
  (Some "-1" = Some "-1" /\ parseInt "-1" = Some (-1)%Z /\ (-1 < 0)%Z /\ (0 < int_param_or None 50)%Z /\
   handle_list (sample_store 3) (docs (sample_store 3)) (Some "-1") None None None
   = fail 500 "Failed to get waitlist entries").
Proof.
  destruct (list_page_below_one (sample_store 3) (docs (sample_store 3)) None None None None) as [H0 _].
  destruct (list_page_below_one (sample_store 3) (docs (sample_store 3)) (Some "-1") None None None)
    as [_ H1].
  split; [exact H0 |].
  split; [reflexivity | split; [vm_compute; reflexivity | split; [vm_compute; reflexivity |]]].
  split; [vm_compute; reflexivity |].
  apply (H1 "-1" (-1)%Z); vm_compute; reflexivity.
Defined.

(** C6: [page=-1] does not answer as [page=1]. *)
Lemma negative_page_not_page_one :
  status (handle_list (sample_store 3) (docs (sample_store 3)) (Some "-1") None None None) = 500%Z /\
  status (handle_list (sample_store 3) (docs (sample_store 3)) (Some "1") None None None) = 200%Z.
Proof. vm_compute; split; reflexivity. Qed.

Lemma sort_direction_cases (qo : option string) :
  (sort_direction qo = 1%Z /\ qo = Some "asc") \/
  (sort_direction qo = (-1)%Z /\ qo <> Some "asc").
Proof.
  destruct qo as [x |]; simpl; [| right; split; [reflexivity | discriminate]].
  destruct (String.eqb x "asc") eqn:E.
  - apply String.eqb_eq in E; subst; left; auto.
  - right; split; [reflexivity |]; intro H; injection H as ->; discriminate.
Qed.

(** C7 (confirmed). The sort is ascending exactly when [sortOrder] is the
    string ["asc"], descending otherwise, and the echoed [sortOrder] says
    ["asc"] or ["desc"] accordingly. *)
Theorem sort_order_asc_only (qo : option string) :
  (sort_direction qo = 1%Z <-> qo = Some "asc") /\
  (qo <> Some "asc" -> sort_direction qo = (-1)%Z) /\
  (forall b d d', sort_le b (sort_direction qo) d d' = true <->
     (qo = Some "asc" /\ bson_compare (field b d) (field b d') <> Gt) \/
     (qo <> Some "asc" /\ bson_compare (field b d) (field b d') <> Lt)) /\
  (forall s scan qp ql qb, status (handle_list s scan qp ql qb qo) = 200%Z ->
     (json_path ["data"; "sorting"; "sortOrder"] (body (handle_list s scan qp ql qb qo))
        = Some (JsStr "asc") <-> qo = Some "asc") /\
     (qo <> Some "asc" ->
      json_path ["data"; "sorting"; "sortOrder"] (body (handle_list s scan qp ql qb qo))
        = Some (JsStr "desc"))).
Proof.
  destruct (sort_direction_cases qo) as [[Hd ->] | [Hd Hq]].
  - split; [split; reflexivity | split; [congruence | split]].
    + intros b d d'; unfold sort_le; simpl.
      destruct (bson_compare (field b d) (field b d')); split; intro H; try discriminate;
        first [left; split; [reflexivity | discriminate] | destruct H as [[_ H] | [H _]]; congruence].
    + intros s scan qp ql qb Hst; unfold handle_list in *; simpl sort_direction in *.
      destruct (find_page _ _ _ _ _ _); simpl in *; [| discriminate].
      split; [split; intros; reflexivity | intro H; exfalso; apply H; reflexivity].
  - rewrite Hd; split; [split; [discriminate | congruence] | split; [auto | split]].
    + intros b d d'; unfold sort_le; simpl.
      destruct (bson_compare (field b d) (field b d')); split; intro H; try discriminate;
        first [right; split; [exact Hq | discriminate] | destruct H as [[H _] | [_ H]]; congruence].
    + intros s scan qp ql qb Hst; unfold handle_list in *; rewrite Hd in *.
      destruct (find_page _ _ _ _ _ _); simpl in *; [| discriminate].
      split; [split; [discriminate | intro H; contradiction] | reflexivity].
Qed.

Lemma sort_order_asc_only_witness :
  status (handle_list (sample_store 3) (docs (sample_store 3)) None None (Some "email") (Some "asc"))
    = 200%Z /\
  json_path ["data"; "sorting"; "sortOrder"]
    (body (handle_list (sample_store 3) (docs (sample_store 3)) None None (Some "email") (Some "asc")))
    = Some (JsStr "asc") /\
  json_path ["data"; "sorting"; "sortOrder"]
    (body (handle_list (sample_store 3) (docs (sample_store 3)) None None (Some "email") (Some "ASC")))
    = Some (JsStr "desc").
Proof.
  destruct (sort_order_asc_only (Some "asc")) as (_ & _ & _ & Hasc).
  destruct (sort_order_asc_only (Some "ASC")) as (_ & _ & _ & Hother).
  assert (H200 : status (handle_list (sample_store 3) (docs (sample_store 3)) None None
                          (Some "email") (Some "asc")) = 200%Z)
    by (vm_compute; reflexivity).
  split; [exact H200 | split].
  - apply (Hasc (sample_store 3) (docs (sample_store 3)) None None (Some "email") H200); reflexivity.
  - apply (Hother (sample_store 3) (docs (sample_store 3)) None None (Some "email"));
      [vm_compute; reflexivity | discriminate].
Defined.

Lemma project_fields (d : document) :
  Forall (fun kv => In (fst kv) projected_fields) (project d).
Proof.
  apply Forall_forall; intros kv Hin; unfold project in Hin.
  apply filter_In in Hin as [_ Hk]; apply existsb_exists in Hk as (k & Hk & Heq).
  apply String.eqb_eq in Heq; rewrite Heq; exact Hk.
Qed.

(** C8 (confirmed). Every entry of a listing is an object whose keys are
    among [_id], [email], [createdAt] and [source]: [ipAddress] and
    [userAgent] never appear, whatever the stored documents hold. *)
Theorem listing_projection (s : store) (scan : list document) (qp ql qb qo : option string)
    (es : list json) :
  json_path ["data"; "entries"] (body (handle_list s scan qp ql qb qo)) = Some (JsArr es) ->
  Forall (fun j => exists kvs, j = JsObj kvs /\
            Forall (fun kv => In (fst kv) ["email"; "createdAt"; "source"; "_id"]) kvs /\
            json_get "ipAddress" kvs = None /\ json_get "userAgent" kvs = None) es.
Proof.
  unfold handle_list, find_page.
  destruct (sort_key_error _); [simpl; discriminate |].
  destruct (_ <? 0)%Z; simpl; [discriminate |].
  intro H; injection H as <-.
  apply Forall_forall; intros j Hj.
  apply in_map_iff in Hj as (d & <- & Hd).
  apply in_map_iff in Hd as (d0 & <- & _).
  pose proof (project_fields d0) as HF.
  exists (map (fun kv => (fst kv, bson_to_json (snd kv))) (project d0)); split; [reflexivity |].
  assert (HF' : Forall (fun kv => In (fst kv) ["email"; "createdAt"; "source"; "_id"])
                  (map (fun kv => (fst kv, bson_to_json (snd kv))) (project d0))).
  { apply Forall_map; exact HF. }
  assert (Habs : forall k, ~ In k ["email"; "createdAt"; "source"; "_id"] ->
                 json_get k (map (fun kv => (fst kv, bson_to_json (snd kv))) (project d0)) = None).
  { intros k Hk; induction HF' as [| [k' v] kvs Hk' _ IH]; [reflexivity |]; simpl in *.
    destruct (String.eqb k k') eqn:E; [apply String.eqb_eq in E; subst; contradiction | exact IH]. }
  split; [exact HF' | split; apply Habs; simpl; intuition discriminate].
Qed.

Lemma listing_projection_witness :
  json_path ["data"; "entries"]
    (body (handle_list (sample_store 2) (docs (sample_store 2)) None None None None))
    = Some (JsArr [JsObj [("_id", JsId 1); ("email", JsStr "aa@x.io"); ("createdAt", JsTime 1);
                          ("source", JsStr "landing-page")];
                   JsObj [("_id", JsId 0); ("email", JsStr "a@x.io"); ("createdAt", JsTime 0);
                          ("source", JsStr "landing-page")]]) /\
  Forall (fun j => exists kvs, j = JsObj kvs /\
            Forall (fun kv => In (fst kv) ["email"; "createdAt"; "source"; "_id"]) kvs /\
            json_get "ipAddress" kvs = None /\ json_get "userAgent" kvs = None)
    [JsObj [("_id", JsId 1); ("email", JsStr "aa@x.io"); ("createdAt", JsTime 1);
            ("source", JsStr "landing-page")];
     JsObj [("_id", JsId 0); ("email", JsStr "a@x.io"); ("createdAt", JsTime 0);
            ("source", JsStr "landing-page")]].
Proof.
  assert (H : json_path ["data"; "entries"]
                (body (handle_list (sample_store 2) (docs (sample_store 2)) None None None None))
    = Some (JsArr [JsObj [("_id", JsId 1); ("email", JsStr "aa@x.io"); ("createdAt", JsTime 1);
                          ("source", JsStr "landing-page")];
                   JsObj [("_id", JsId 0); ("email", JsStr "a@x.io"); ("createdAt", JsTime 0);
                          ("source", JsStr "landing-page")]])) by (vm_compute; reflexivity).
  split; [exact H | exact (listing_projection _ _ _ _ _ _ _ H)].
Defined.

(** ** Health *)

(** C9: on the on-demand entry point, with the store unreachable, health
    fails the request with 500. *)
Lemma health_fails_when_store_down :
  snd (serve init_system StoreDown 0 Health) = db_failed /\ status db_failed = 500%Z.
Proof. split; reflexivity. Qed.

(** C9 (corrected). On the on-demand entry point (src/api/index.js) health
    first ensures the connection. Already connected, it answers 200 with
    [database: "Connected"]. Not connected, it answers 500 with
    ["Database connection failed"] when the store is unreachable, or when
    the index build faults or meets entries already sharing an email,
    and 200 with ["Connected"] otherwise; the system is connected after
    any reachable attempt. It never reports ["Disconnected"]. On the
    long-running entry point (src/server.js) it always answers 200 with
    ["Connected"] or ["Disconnected"] according to [db]. *)
Theorem health_responses (sys : system) (env : conn_env) (now : nat) (dbv : bool) :
  (db sys = true -> serve sys env now Health = (sys, health_body true now)) /\
  (db sys = false -> env = StoreDown -> serve sys env now Health = (sys, db_failed)) /\
  (forall fault, db sys = false -> env = StoreUp fault ->
     snd (serve sys env now Health) =
       (if fault || (negb (email_unique (coll sys)) && has_dup_email (docs (coll sys)))
        then db_failed else health_body true now) /\
     db (fst (serve sys env now Health)) = true) /\
  status (health_body true now) = 200%Z /\
  json_path ["status"] (body (health_body true now)) = Some (JsStr "OK") /\
  json_path ["database"] (body (health_body true now)) = Some (JsStr "Connected") /\
  json_path ["database"] (body (snd (serve sys env now Health))) <> Some (JsStr "Disconnected") /\
  status (server_health dbv now) = 200%Z /\
  json_path ["status"] (body (server_health dbv now)) = Some (JsStr "OK") /\
  json_path ["database"] (body (server_health dbv now))
    = Some (JsStr (if dbv then "Connected" else "Disconnected")).
Proof.
  assert (Hup : forall fault, db sys = false -> env = StoreUp fault ->
     snd (serve sys env now Health) =
       (if fault || (negb (email_unique (coll sys)) && has_dup_email (docs (coll sys)))
        then db_failed else health_body true now) /\
     db (fst (serve sys env now Health)) = true).
  { intros fault Hdb ->; unfold serve, ensureDBConnection, createIndex; rewrite Hdb.
    destruct fault; simpl; [split; reflexivity |].
    destruct (email_unique (coll sys)); simpl; [split; reflexivity |].
    destruct (has_dup_email (docs (coll sys))); split; reflexivity. }
  assert (Hcon : db sys = true -> serve sys env now Health = (sys, health_body true now)).
  { intro Hdb; unfold serve, ensureDBConnection; rewrite Hdb; simpl; rewrite Hdb; reflexivity. }
  split; [exact Hcon |].
  split; [intros Hdb ->; unfold serve, ensureDBConnection; rewrite Hdb; reflexivity |].
  split; [exact Hup |].
  split; [reflexivity | split; [reflexivity | split; [reflexivity |]]].
  split; [| split; [reflexivity | split; reflexivity]].
  destruct (db sys) eqn:Hdb.
  - rewrite (Hcon eq_refl); discriminate.
  - destruct env as [| fault].
    + unfold serve, ensureDBConnection; rewrite Hdb; discriminate.
    + rewrite (proj1 (Hup fault eq_refl eq_refl)).
      destruct (fault || _); discriminate.
Qed.

Lemma health_responses_witness :
  db init_system = false /\
  snd (serve init_system (StoreUp false) 3 Health) = health_body true 3 /\
  snd (serve (mkSystem false (mkStore [[("email", BString "a@b.co")]; [("email", BString "a@b.co")]] 2 false) [])
             (StoreUp false) 3 Health) = db_failed.
Proof.
  split; [reflexivity | split].
  - exact (proj1 (proj1 (proj2 (proj2 (health_responses init_system (StoreUp false) 3 true)))
                    false eq_refl eq_refl)).
  - exact (proj1 (proj1 (proj2 (proj2 (health_responses
             (mkSystem false (mkStore [[("email", BString "a@b.co")]; [("email", BString "a@b.co")]] 2 false) [])
             (StoreUp false) 3 true))) false eq_refl eq_refl)).
Defined.

(** ** A body without [email] *)

(** C10 (confirmed). With no [email] in the body, [validateEmail(undefined)]
    tests the string ["undefined"] and fails: add-to-waitlist and
    check-email answer 400 with [success: false], and the collection is
    left as it was. *)
Theorem missing_email_rejected (s : store) (ip ua : option string) (now : nat) :
  handle_add s s JUndefined ip ua now = (fail 400 "Please provide a valid email address", s) /\
  handle_check s JUndefined = fail 400 "Invalid email format" /\
  json_path ["success"] (body (fail 400 "Please provide a valid email address")) = Some (JsBool false) /\
  json_path ["success"] (body (fail 400 "Invalid email format")) = Some (JsBool false).
Proof. repeat split. Qed.

(** * Further properties of the handlers *)

(** ** Adding *)

Lemma find_app {A : Type} (f : A -> bool) (l1 l2 : list A) :
  find f (l1 ++ l2) = match find f l1 with Some x => Some x | None => find f l2 end.
Proof. induction l1 as [| x l1 IH]; simpl; [reflexivity |]; destruct (f x); auto. Qed.

(** A 201 from add-to-waitlist appends exactly one document, the new entry
    under a fresh [_id], to the collection the insertion met; a 400 or a
    409 leaves that collection as it was. *)
Theorem add_store_effect (s_check s_insert : store) (email : js_value)
    (ip ua : option string) (now : nat) :
  (status (fst (handle_add s_check s_insert email ip ua now)) = 201%Z ->
   exists se doc, sanitize email = Some se /\ field "email" doc = BString se /\
     snd (handle_add s_check s_insert email ip ua now)
       = mkStore (docs s_insert ++ [("_id", BObjectId (next_oid s_insert)) :: doc])
                 (S (next_oid s_insert)) (email_unique s_insert)) /\
  (status (fst (handle_add s_check s_insert email ip ua now)) = 400%Z \/
   status (fst (handle_add s_check s_insert email ip ua now)) = 409%Z ->
   snd (handle_add s_check s_insert email ip ua now) = s_insert).
Proof.
  unfold handle_add.
  destruct (add_precheck s_check email ip ua now) as [r | e | [se doc]] eqn:Hp.
  - assert (Hr : status r <> 201%Z).
    { revert Hp; unfold add_precheck.
      destruct (negb (validateEmail email)); [intro H; injection H as <-; discriminate |].
      destruct (sanitize email); [| discriminate].
      destruct (findOne _ _); [intro H; injection H as <-; discriminate | discriminate]. }
    simpl; split; [intro; contradiction | reflexivity].
  - simpl; split; [| reflexivity].
    unfold add_catch; destruct (match error_code e with Some c => (c =? 11000)%Z | None => false end);
      discriminate.
  - assert (Hse : sanitize email = Some se /\ field "email" doc = BString se).
    { revert Hp; unfold add_precheck.
      destruct (negb (validateEmail email)); [discriminate |].
      destruct (sanitize email) as [x |]; [| discriminate].
      destruct (findOne _ _); [discriminate |].
      intro H; injection H as <- <-; split; reflexivity. }
    unfold add_insert, insertOne.
    destruct (email_unique s_insert && email_taken (docs s_insert) (field "email" doc)); simpl.
    + split; [| reflexivity].
      unfold add_catch; simpl; discriminate.
    + split; [intros _; exists se, doc; tauto | intros [H | H]; discriminate].
Qed.

Lemma add_store_effect_witness :
  (status (fst (handle_add empty_store empty_store (JString "Ann@Mail.com") None None 3)) = 201%Z /\
   exists se doc, sanitize (JString "Ann@Mail.com") = Some se /\ field "email" doc = BString se /\
     snd (handle_add empty_store empty_store (JString "Ann@Mail.com") None None 3)
       = mkStore (docs empty_store ++ [("_id", BObjectId (next_oid empty_store)) :: doc])
                 (S (next_oid empty_store)) (email_unique empty_store)) /\
  (status (fst (handle_add (sample_store 2) (sample_store 2) (JString "A@x.io") None None 3)) = 409%Z /\
   snd (handle_add (sample_store 2) (sample_store 2) (JString "A@x.io") None None 3) = sample_store 2).
Proof.
  assert (H : status (fst (handle_add empty_store empty_store (JString "Ann@Mail.com") None None 3))
              = 201%Z) by (vm_compute; reflexivity).
  assert (H' : status (fst (handle_add (sample_store 2) (sample_store 2) (JString "A@x.io") None None 3))
               = 409%Z) by (vm_compute; reflexivity).
  split; [split; [exact H |] | split; [exact H' |]].
  - exact (proj1 (add_store_effect empty_store empty_store (JString "Ann@Mail.com") None None 3) H).
  - exact (proj2 (add_store_effect (sample_store 2) (sample_store 2) (JString "A@x.io") None None 3)
             (or_intror H')).
Defined.

(** Insertion then lookup: after a 201, [findOne] on the lower-cased
    address returns the new document (its [_id], the address, the request
    time, the source ['landing-page'] and the provenance), and the response
    carries that [_id] and address. *)
Theorem add_then_findOne (s : store) (e : string) (ip ua : option string) (now : nat) :
  status (fst (handle_add s s (JString e) ip ua now)) = 201%Z ->
  let opt v := match v with Some x => BString x | None => BNull end in
  findOne (snd (handle_add s s (JString e) ip ua now)) (toLowerCase e) =
    Some [("_id", BObjectId (next_oid s)); ("email", BString (toLowerCase e));
          ("createdAt", BDate now); ("source", BString "landing-page");
          ("ipAddress", opt ip); ("userAgent", opt ua)] /\
  json_path ["data"; "id"] (body (fst (handle_add s s (JString e) ip ua now)))
    = Some (JsId (next_oid s)) /\
  json_path ["data"; "email"] (body (fst (handle_add s s (JString e) ip ua now)))
    = Some (JsStr (toLowerCase e)).
Proof.
  intros H201 opt.
  destruct (validateEmail (JString e)) eqn:Hv.
  2:{ exfalso; revert H201; unfold handle_add, add_precheck; rewrite Hv; simpl; discriminate. }
  destruct (findOne s (toLowerCase e)) as [d |] eqn:Hf.
  { exfalso; revert H201; unfold handle_add.
    rewrite (add_precheck_found s (JString e) (toLowerCase e) ip ua now Hv);
      [simpl; discriminate | apply sanitize_valid; auto | congruence]. }
  assert (Ht : email_taken (docs s) (BString (toLowerCase e)) = false).
  { apply not_true_iff_false; rewrite email_taken_spec; apply findOne_none; auto. }
  unfold handle_add, add_precheck; rewrite Hv; simpl negb; cbv iota.
  destruct (sanitize_valid e Hv) as [Hs _]; rewrite Hs, Hf.
  unfold add_insert, insertOne; simpl field; rewrite Ht, andb_false_r; simpl.
  split; [| split; reflexivity].
  unfold findOne; simpl; rewrite find_app.
  replace (find _ (docs s)) with (@None document) by (symmetry; exact Hf).
  simpl; rewrite String.eqb_refl; reflexivity.
Qed.

Lemma add_then_findOne_witness :
  status (fst (handle_add (sample_store 2) (sample_store 2) (JString "Bo@X.io") (Some "1.2.3.4") None 7))
    = 201%Z /\
  findOne (snd (handle_add (sample_store 2) (sample_store 2) (JString "Bo@X.io") (Some "1.2.3.4") None 7))
          (toLowerCase "Bo@X.io") =
    Some [("_id", BObjectId 2); ("email", BString "bo@x.io"); ("createdAt", BDate 7);
          ("source", BString "landing-page"); ("ipAddress", BString "1.2.3.4"); ("userAgent", BNull)].
Proof.
  assert (H : status (fst (handle_add (sample_store 2) (sample_store 2) (JString "Bo@X.io")
                            (Some "1.2.3.4") None 7)) = 201%Z) by (vm_compute; reflexivity).
  split; [exact H |].
  exact (proj1 (add_then_findOne (sample_store 2) "Bo@X.io" (Some "1.2.3.4") None 7 H)).
Defined.

(** ** Checking *)

(** For a valid address, check-email answers 200 with [exists: true]
    exactly when the lower-cased address is stored. *)
Theorem check_exists_iff_stored (s : store) (e : string) :
  validateEmail (JString e) = true ->
  status (handle_check s (JString e)) = 200%Z /\
  (json_path ["exists"] (body (handle_check s (JString e))) = Some (JsBool true) <->
   In (BString (toLowerCase e)) (map (field "email") (docs s))) /\
  (json_path ["exists"] (body (handle_check s (JString e))) = Some (JsBool false) <->
   ~ In (BString (toLowerCase e)) (map (field "email") (docs s))).
Proof.
  intro Hv; destruct (sanitize_valid e Hv) as [Hs _].
  unfold handle_check; rewrite Hv; simpl negb; cbv iota; rewrite Hs.
  split; [reflexivity |].
  destruct (findOne s (toLowerCase e)) as [d |] eqn:Hf; simpl.
  - assert (Hin : In (BString (toLowerCase e)) (map (field "email") (docs s))).
    { destruct (email_taken (docs s) (BString (toLowerCase e))) eqn:E.
      - apply email_taken_spec; exact E.
      - exfalso; assert (Hn : findOne s (toLowerCase e) = None).
        { apply findOne_none; rewrite <- email_taken_spec, E; discriminate. }
        congruence. }
    split; split; intro H; auto; [discriminate | contradiction].
  - apply findOne_none in Hf.
    split; split; intro H; auto; [discriminate | contradiction].
Qed.

Lemma check_exists_iff_stored_witness :
  validateEmail (JString "AA@x.io") = true /\
  json_path ["exists"] (body (handle_check (sample_store 3) (JString "AA@x.io"))) = Some (JsBool true).
Proof.
  assert (Hv : validateEmail (JString "AA@x.io") = true) by (vm_compute; reflexivity).
  split; [exact Hv |].
  apply (check_exists_iff_stored (sample_store 3) "AA@x.io" Hv); vm_compute; auto.
Defined.

(** On a connected system, check-email predicts add-to-waitlist for the
    same valid address: [exists: false] is followed by 201, [exists: true]
    by the duplicate 409; the check itself changes nothing. *)
Theorem check_predicts_add (sys : system) (env1 env2 : conn_env) (t1 t2 : nat) (e : string)
    (ip ua : option string) :
  db sys = true -> validateEmail (JString e) = true ->
  let '(sys1, rc) := serve sys env1 t1 (CheckEmail (JString e)) in
  sys1 = sys /\
  (json_path ["exists"] (body rc) = Some (JsBool false) ->
   status (snd (serve sys1 env2 t2 (AddToWaitlist (JString e) ip ua))) = 201%Z) /\
  (json_path ["exists"] (body rc) = Some (JsBool true) ->
   snd (serve sys1 env2 t2 (AddToWaitlist (JString e) ip ua)) = fail 409 duplicate_message).
Proof.
  intros Hdb Hv.
  rewrite serve_connected by exact Hdb; simpl route; cbv beta iota.
  destruct (sanitize_valid e Hv) as [Hs _].
  split; [reflexivity |].
  rewrite serve_connected by exact Hdb; unfold route.
  unfold handle_check; rewrite Hv; simpl negb; cbv iota; rewrite Hs.
  destruct (findOne (coll sys) (toLowerCase e)) as [d |] eqn:Hf; simpl.
  - split; [discriminate | intros _].
    unfold handle_add; rewrite (add_precheck_found _ (JString e) (toLowerCase e) ip ua t2 Hv Hs);
      [reflexivity | congruence].
  - split; [intros _ | discriminate].
    destruct (add_precheck_new (coll sys) e ip ua t2 Hv Hf) as (doc & Hp & Hfe).
    unfold handle_add; rewrite Hp; unfold add_insert, insertOne; rewrite Hfe.
    assert (Ht : email_taken (docs (coll sys)) (BString (toLowerCase e)) = false).
    { apply not_true_iff_false; rewrite email_taken_spec; apply findOne_none; auto. }
    rewrite Ht, andb_false_r; reflexivity.
Qed.

Lemma check_predicts_add_witness :
  db (mkSystem true (sample_store 1) []) = true /\ validateEmail (JString "A@x.io") = true /\
  snd (serve (mkSystem true (sample_store 1) []) StoreDown 5 (AddToWaitlist (JString "A@x.io") None None))
    = fail 409 duplicate_message.
Proof.
  assert (Hv : validateEmail (JString "A@x.io") = true) by (vm_compute; reflexivity).
  split; [reflexivity | split; [exact Hv |]].
  destruct (check_predicts_add (mkSystem true (sample_store 1) []) StoreDown StoreDown 4 5 "A@x.io"
              None None eq_refl Hv) as (Heq & _ & Htrue).
  apply Htrue; vm_compute; reflexivity.
Defined.

(** ** Runs of requests *)

Lemma add_new_serve (sys : system) (env : conn_env) (now : nat) (e : string)
    (ip ua : option string) :
  db sys = true -> validateEmail (JString e) = true -> findOne (coll sys) (toLowerCase e) = None ->
  exists doc, field "email" doc = BString (toLowerCase e) /\
    fst (serve sys env now (AddToWaitlist (JString e) ip ua)) =
      mkSystem true (mkStore (docs (coll sys) ++ [("_id", BObjectId (next_oid (coll sys))) :: doc])
                        (S (next_oid (coll sys))) (email_unique (coll sys)))
               (in_flight sys).
Proof.
  intros Hdb Hv Hf.
  destruct (add_precheck_new (coll sys) e ip ua now Hv Hf) as (doc & Hp & Hfe).
  exists doc; split; [exact Hfe |].
  rewrite serve_connected by exact Hdb; unfold route, handle_add; rewrite Hp.
  unfold add_insert, insertOne; rewrite Hfe.
  assert (Ht : email_taken (docs (coll sys)) (BString (toLowerCase e)) = false).
  { apply not_true_iff_false; rewrite email_taken_spec; apply findOne_none; auto. }
  rewrite Ht, andb_false_r, Hdb; reflexivity.
Qed.

(** On a connected system, a run of add requests for valid addresses whose
    lower-cased forms are pairwise distinct and not yet stored grows the
    count reported by the stats endpoint by exactly the number of
    requests, with or without the unique index. *)
Theorem serve_all_adds_count (sys : system) (env : conn_env) (now : nat) (es : list string)
    (ip ua : option string) :
  db sys = true ->
  Forall (fun e => validateEmail (JString e) = true) es ->
  NoDup (map toLowerCase es) ->
  Forall (fun e => findOne (coll sys) (toLowerCase e) = None) es ->
  countDocuments (coll (serve_all sys env now (map (fun e => AddToWaitlist (JString e) ip ua) es)))
    = (countDocuments (coll sys) + Z.of_nat (length es))%Z.
Proof.
  revert sys now; induction es as [| e es IH]; intros sys now Hdb Hv Hnd Hnew; simpl.
  - lia.
  - inversion Hv as [| ? ? Hv1 Hvs]; inversion Hnd as [| ? ? Hnot Hnds];
      inversion Hnew as [| ? ? Hn1 Hns]; subst.
    destruct (add_new_serve sys env now e ip ua Hdb Hv1 Hn1) as (doc & Hfe & Hs).
    rewrite Hs, IH; [| reflexivity | exact Hvs | exact Hnds |].
    + unfold countDocuments; simpl; rewrite length_app; simpl; lia.
    + apply Forall_forall; intros x Hx; apply findOne_none; simpl.
      rewrite map_app, in_app_iff; simpl; rewrite Hfe; intros [Hin | [Heq | []]].
      * revert Hin; apply findOne_none; rewrite Forall_forall in Hns; auto.
      * injection Heq as Heq; apply Hnot; rewrite Heq; apply in_map; exact Hx.
Qed.

Lemma serve_all_adds_count_witness :
  db (mkSystem true (sample_store 2) []) = true /\
  countDocuments (coll (serve_all (mkSystem true (sample_store 2) []) StoreDown 10
       (map (fun e => AddToWaitlist (JString e) None None) ["x@y.io"; "X@z.io"; "w@y.io"])))
    = (countDocuments (sample_store 2) + 3)%Z.
Proof.
  split; [reflexivity |].
  apply (serve_all_adds_count (mkSystem true (sample_store 2) []) StoreDown 10
           ["x@y.io"; "X@z.io"; "w@y.io"] None None eq_refl).
  - repeat constructor.
  - vm_compute; repeat constructor; intros H; repeat (destruct H as [H | H]; [discriminate |]); exact H.
  - repeat constructor.
Defined.

(** ** Pages *)

Lemma firstn_add_split {A : Type} (n m : nat) (l : list A) :
  firstn (n + m) l = firstn n l ++ firstn m (skipn n l).
Proof.
  revert l; induction n as [| n IH]; intros [| x l]; simpl; auto.
  - destruct m; reflexivity.
  - f_equal; apply IH.
Qed.

Lemma flat_map_pages {A : Type} (k m a : nat) (l : list A) :
  flat_map (fun p => firstn k (skipn (p * k) l)) (seq a m) = firstn (m * k) (skipn (a * k) l).
Proof.
  revert a; induction m as [| m IH]; intro a; simpl; [reflexivity |].
  rewrite IH, firstn_add_split, skipn_skipn.
  f_equal; f_equal; f_equal; lia.
Qed.

Lemma ceil_div_bounds (n lim : Z) :
  (0 < lim)%Z -> ((ceil_div n lim - 1) * lim < n <= ceil_div n lim * lim)%Z.
Proof.
  intro Hl; unfold ceil_div.
  pose proof (Z.div_mod (- n) lim ltac:(lia)) as Hdm.
  pose proof (Z.mod_pos_bound (- n) lim Hl) as Hb.
  set (q := ((- n) / lim)%Z) in *; set (r := ((- n) mod lim)%Z) in *.
  nia.
Qed.

Lemma ascii_list_compare_eq (a b : list ascii) : ascii_list_compare a b = Eq -> a = b.
Proof.
  revert b; induction a as [| x a IH]; intros [| y b]; simpl; try discriminate; [reflexivity |].
  destruct (Nat.compare_spec (nat_of_ascii x) (nat_of_ascii y)) as [Hxy | Hxy | Hxy];
    try discriminate.
  intro H; rewrite (IH b H).
  rewrite <- (ascii_nat_embedding x), <- (ascii_nat_embedding y), Hxy; reflexivity.
Qed.

Lemma ascii_list_compare_trans (a b c : list ascii) :
  ascii_list_compare a b <> Gt -> ascii_list_compare b c <> Gt -> ascii_list_compare a c <> Gt.
Proof.
  revert b c; induction a as [| x a IH]; intros [| y b] [| z c]; simpl; try congruence.
  destruct (Nat.compare_spec (nat_of_ascii x) (nat_of_ascii y)) as [Hxy | Hxy | Hxy];
    destruct (Nat.compare_spec (nat_of_ascii y) (nat_of_ascii z)) as [Hyz | Hyz | Hyz];
    destruct (Nat.compare_spec (nat_of_ascii x) (nat_of_ascii z)) as [Hxz | Hxz | Hxz];
    try lia; try congruence.
  apply IH.
Qed.

Lemma bson_compare_eq (a b : bson) : bson_compare a b = Eq -> a = b.
Proof.
  destruct a, b; simpl; try discriminate; try reflexivity.
  - intro H; apply ascii_list_compare_eq in H.
    rewrite <- (string_of_list_ascii_of_string s), H, string_of_list_ascii_of_string; reflexivity.
  - intro H; apply Nat.compare_eq in H; subst; reflexivity.
  - intro H; apply Nat.compare_eq in H; subst; reflexivity.
Qed.

Lemma bson_compare_trans (a b c : bson) :
  bson_compare a b <> Gt -> bson_compare b c <> Gt -> bson_compare a c <> Gt.
Proof.
  destruct a, b, c; simpl; try congruence; try apply ascii_list_compare_trans;
    rewrite !Nat.compare_le_iff; lia.
Qed.

Lemma sort_le_trans (b : string) (o : Z) (d1 d2 d3 : document) :
  sort_le b o d1 d2 = true -> sort_le b o d2 d3 = true -> sort_le b o d1 d3 = true.
Proof.
  assert (Hle : forall x y, match bson_compare x y with Gt => false | _ => true end = true <->
                            bson_compare x y <> Gt)
    by (intros x y; destruct (bson_compare x y); split; congruence).
  assert (Hge : forall x y, match bson_compare x y with Lt => false | _ => true end = true <->
                            bson_compare y x <> Gt)
    by (intros x y; rewrite (bson_compare_antisym x y);
        destruct (bson_compare x y); simpl; split; congruence).
  unfold sort_le; destruct ((o =? 1)%Z); rewrite ?Hle, ?Hge.
  - apply bson_compare_trans.
  - intros H1 H2; exact (bson_compare_trans _ _ _ H2 H1).
Qed.

Lemma sort_le_both (b : string) (o : Z) (d d' : document) :
  sort_le b o d d' = true -> sort_le b o d' d = true -> field b d = field b d'.
Proof.
  unfold sort_le; rewrite (bson_compare_antisym (field b d) (field b d')).
  destruct ((o =? 1)%Z); destruct (bson_compare (field b d) (field b d')) eqn:E;
    simpl; try discriminate; intros _ _; apply bson_compare_eq; exact E.
Qed.

(** With pairwise distinct keys, the sorted order is unique. *)
Lemma sorted_distinct_unique (b : string) (o : Z) (l1 l2 : list document) :
  Permutation l1 l2 -> NoDup (map (field b) l1) ->
  Sorted (fun d d' => sort_le b o d d' = true) l1 ->
  Sorted (fun d d' => sort_le b o d d' = true) l2 -> l1 = l2.
Proof.
  assert (Htr : Relations_1.Transitive (fun d d' => sort_le b o d d' = true))
    by (intros x y z; apply sort_le_trans).
  intros Hp Hnd H1 H2.
  apply Sorted_StronglySorted in H1; [| exact Htr].
  apply Sorted_StronglySorted in H2; [| exact Htr].
  revert l2 Hp Hnd H1 H2; induction l1 as [| x r1 IH]; intros l2 Hp Hnd H1 H2.
  - symmetry; apply Permutation_nil; exact Hp.
  - destruct l2 as [| y r2]; [apply Permutation_sym, Permutation_nil_cons in Hp; contradiction |].
    apply StronglySorted_inv in H1 as [H1 Hx]; apply StronglySorted_inv in H2 as [H2 Hy].
    inversion Hnd as [| ? ? Hnot Hnd']; subst.
    assert (Hxy : x = y).
    { assert (Hyin : In y (x :: r1)) by (apply (Permutation_in y (Permutation_sym Hp)); left; reflexivity).
      assert (Hxin : In x (y :: r2)) by (apply (Permutation_in x Hp); left; reflexivity).
      destruct Hyin as [-> | Hyr]; [reflexivity |].
      destruct Hxin as [-> | Hxr]; [reflexivity |].
      exfalso; apply Hnot.
      rewrite (sort_le_both b o x y (proj1 (Forall_forall _ _) Hx y Hyr)
                 (proj1 (Forall_forall _ _) Hy x Hxr)).
      apply in_map; exact Hyr. }
    subst y; f_equal; apply IH; auto.
    apply Permutation_cons_inv with x; exact Hp.
Qed.

(** Reading the pages [1 .. totalPages] with a positive page size, as the
    listing computes their [skip] and [totalPages], yields every entry of
    the sorted collection exactly once and in order, when the sort key is
    accepted and takes distinct values across the entries (as [_id] does):
    whatever scan order the server picks for each page. *)
Theorem pages_cover_collection (s : store) (scans : nat -> list document) (b : string)
    (o lim : Z) :
  (0 < lim)%Z -> sort_key_error b = None -> b <> "__proto__" -> b <> "$natural" ->
  NoDup (map (field b) (docs s)) ->
  (forall p, Permutation (scans p) (docs s)) ->
  flat_map (fun p => match find_page s (scans p) b o (Z.of_nat p * lim) lim with
                     | inl l => l
                     | inr _ => []
                     end)
           (seq 0 (Z.to_nat (ceil_div (countDocuments s) lim)))
  = map project (sort_docs (sort_le b o) (docs s)).
Proof.
  intros Hl Hk Hp Hn Hnd Hscan.
  set (L := sort_docs (sort_le b o) (docs s)).
  assert (HL : length L = length (docs s)) by (apply Permutation_length, sort_docs_perm).
  assert (Huniq : forall p, query_order s (scans p) b o = L).
  { intro p; destruct (query_order_sorted s (scans p) b o Hp Hn) as [Hq Hs].
    destruct (query_order_sorted s (docs s) b o Hp Hn) as [HqL HsL].
    rewrite Hq in *; rewrite HqL in HsL.
    apply (sorted_distinct_unique b o); auto.
    - apply perm_trans with (scans p); [apply sort_docs_perm |].
      apply perm_trans with (docs s); [apply Hscan | apply Permutation_sym, sort_docs_perm].
    - apply (Permutation_NoDup (l := map (field b) (docs s))); [| exact Hnd].
      apply Permutation_map, Permutation_sym.
      apply perm_trans with (scans p); [apply sort_docs_perm | apply Hscan]. }
  rewrite (flat_map_ext _ (fun p => firstn (Z.to_nat lim) (skipn (p * Z.to_nat lim) (map project L)))).
  2:{ intro p; rewrite find_page_ok by (first [exact Hk | lia]).
      rewrite Huniq, skipn_map, firstn_map, Z2Nat.inj_mul, Nat2Z.id by lia; reflexivity. }
  rewrite flat_map_pages, Nat.mul_0_l; cbn [skipn]; apply firstn_all2.
  rewrite length_map, HL.
  pose proof (ceil_div_bounds (countDocuments s) lim Hl) as [_ Hup].
  unfold countDocuments in Hup.
  pose proof (Nat2Z.is_nonneg (length (docs s))) as Hn0.
  assert (Hc : (0 <= ceil_div (Z.of_nat (length (docs s))) lim)%Z) by nia.
  apply Nat2Z.inj_le; rewrite Nat2Z.inj_mul.
  unfold countDocuments; rewrite !Z2Nat.id by lia.
  lia.
Qed.

(** Pages read with the collection's order for the even pages and its
    reverse for the odd ones. *)
Lemma pages_cover_collection_witness :
  ((0 < 2)%Z /\ sort_key_error "createdAt" = None /\ "createdAt" <> "__proto__" /\
   "createdAt" <> "$natural" /\ NoDup (map (field "createdAt") (docs (sample_store 5))) /\
   (forall p, Permutation (if Nat.even p then docs (sample_store 5) else rev (docs (sample_store 5)))
                          (docs (sample_store 5)))) /\
  flat_map (fun p => match find_page (sample_store 5)
                             (if Nat.even p then docs (sample_store 5) else rev (docs (sample_store 5)))
                             "createdAt" (-1) (Z.of_nat p * 2) 2 with
                     | inl l => l
                     | inr _ => []
                     end)
           (seq 0 (Z.to_nat (ceil_div (countDocuments (sample_store 5)) 2)))
  = map project (sort_docs (sort_le "createdAt" (-1)) (docs (sample_store 5))).
Proof.
  assert (Hk : sort_key_error "createdAt" = None) by (vm_compute; reflexivity).
  assert (Hnd : NoDup (map (field "createdAt") (docs (sample_store 5)))).
  { vm_compute; repeat constructor; simpl; intuition discriminate. }
  assert (Hperm : forall p, Permutation (if Nat.even p then docs (sample_store 5)
                                         else rev (docs (sample_store 5))) (docs (sample_store 5))).
  { intro p; destruct (Nat.even p); [apply Permutation_refl | apply Permutation_sym, Permutation_rev]. }
  split; [repeat split; try discriminate; auto; lia |].
  apply (pages_cover_collection (sample_store 5)
           (fun p => if Nat.even p then docs (sample_store 5) else rev (docs (sample_store 5)))
           "createdAt" (-1) 2); auto; try lia; discriminate.
Defined.

(** For a page of at least 1, a positive page size and a sort key the
    store accepts, the listing's metadata is consistent with its count:
    [totalPages] is the least [tp] with [count <= tp * pageSize],
    [hasNextPage] says that entries remain after this page, [hasPrevPage]
    that the page is not the first. *)
Theorem list_pagination_metadata (s : store) (scan : list document) (qp ql qb qo : option string) :
  (1 <= int_param_or qp 1)%Z -> (0 < Z.min (int_param_or ql 50) 100)%Z ->
  sort_key_error (sort_field qb) = None ->
  let page := int_param_or qp 1 in
  let lim := Z.min (int_param_or ql 50) 100 in
  let pg k := json_path ["data"; "pagination"; k] (body (handle_list s scan qp ql qb qo)) in
  exists tp,
    pg "totalPages" = Some (JsNum tp) /\
    ((tp - 1) * lim < countDocuments s <= tp * lim)%Z /\
    pg "totalCount" = Some (JsNum (countDocuments s)) /\
    pg "currentPage" = Some (JsNum page) /\
    pg "hasNextPage" = Some (JsBool (page * lim <? countDocuments s)%Z) /\
    pg "hasPrevPage" = Some (JsBool (1 <? page)%Z).
Proof.
  intros Hp Hl Hk page lim pg.
  exists (ceil_div (countDocuments s) lim).
  pose proof (ceil_div_bounds (countDocuments s) lim Hl) as Hb.
  unfold pg, handle_list; fold page lim.
  rewrite find_page_ok by (first [exact Hk | unfold page, lim in *; nia]).
  cbn [body json_path json_get String.eqb Ascii.eqb Bool.eqb].
  split; [reflexivity | split; [exact Hb |]].
  split; [reflexivity | split; [reflexivity | split; [| reflexivity]]].
  do 2 f_equal.
  destruct (Z.ltb_spec page (ceil_div (countDocuments s) lim));
    destruct (Z.ltb_spec (page * lim) (countDocuments s)); auto; nia.
Qed.

Lemma list_pagination_metadata_witness :
  (1 <= int_param_or (Some "2") 1)%Z /\ (0 < Z.min (int_param_or (Some "2") 50) 100)%Z /\
  sort_key_error (sort_field (Some "email")) = None /\
  json_path ["data"; "pagination"; "hasNextPage"]
    (body (handle_list (sample_store 5) (docs (sample_store 5)) (Some "2") (Some "2") (Some "email") None))
    = Some (JsBool (2 * 2 <? countDocuments (sample_store 5))%Z).
Proof.
  assert (H1 : (1 <= int_param_or (Some "2") 1)%Z) by (vm_compute; discriminate).
  assert (H2 : (0 < Z.min (int_param_or (Some "2") 50) 100)%Z) by (vm_compute; reflexivity).
  assert (H3 : sort_key_error (sort_field (Some "email")) = None) by (vm_compute; reflexivity).
  split; [exact H1 | split; [exact H2 | split; [exact H3 |]]].
  destruct (list_pagination_metadata (sample_store 5) (docs (sample_store 5)) (Some "2") (Some "2")
              (Some "email") None H1 H2 H3) as (tp & _ & _ & _ & _ & Hn & _).
  exact Hn.
Defined.

(** ** Connecting *)

Lemma has_dup_email_nodup (ds : list document) :
  NoDup (map (field "email") ds) -> has_dup_email ds = false.
Proof.
  induction ds as [| d ds IH]; intro Hnd; simpl; [reflexivity |].
  inversion Hnd as [| ? ? Hnot Hnd']; subst.
  rewrite IH by exact Hnd'.
  destruct (email_taken ds (field "email" d)) eqn:E; [| reflexivity].
  apply email_taken_spec in E; contradiction.
Qed.

Lemma nodup_has_dup_email (ds : list document) :
  has_dup_email ds = false -> NoDup (map (field "email") ds).
Proof.
  induction ds as [| d ds IH]; simpl; [constructor |].
  intro H; apply orb_false_iff in H as [Ht Hd].
  constructor; [| exact (IH Hd)].
  rewrite <- email_taken_spec, Ht; discriminate.
Qed.

(** What a request meets on a system that is not connected yet: an
    unreachable store answers 500 and leaves the state as it was, so the
    next request tries again; a faulting index build, or one meeting
    entries that already share an email (no index yet), answers 500 but
    marks the system connected, without the index; a clean connection to
    a store without duplicate emails builds the index, and the request is
    then served on the connected system. *)
Theorem connect_outcomes (sys : system) (now : nat) (req : request) :
  db sys = false ->
  serve sys StoreDown now req = (sys, db_failed) /\
  serve sys (StoreUp true) now req = (mkSystem true (coll sys) (in_flight sys), db_failed) /\
  (email_unique (coll sys) = false -> ~ NoDup (map (field "email") (docs (coll sys))) ->
   serve sys (StoreUp false) now req = (mkSystem true (coll sys) (in_flight sys), db_failed)) /\
  (NoDup (map (field "email") (docs (coll sys))) ->
   serve sys (StoreUp false) now req =
     route (mkSystem true (mkStore (docs (coll sys)) (next_oid (coll sys)) true) (in_flight sys))
           now req).
Proof.
  intro Hdb; unfold serve, ensureDBConnection; rewrite Hdb.
  split; [reflexivity | split; [reflexivity | split]].
  - intros Hu Hnd; unfold createIndex; rewrite Hu; simpl.
    destruct (has_dup_email (docs (coll sys))) eqn:Hd; [reflexivity |].
    exfalso; apply Hnd, nodup_has_dup_email, Hd.
  - intros Hnd; unfold createIndex; simpl.
    destruct (coll sys) as [ds n u]; simpl in *.
    destruct u; [reflexivity |].
    rewrite (has_dup_email_nodup _ Hnd); reflexivity.
Qed.

Lemma connect_outcomes_witness :
  db (mkSystem false (mkStore (docs (sample_store 2)) 2 false) []) = false /\
  serve (mkSystem false (mkStore (docs (sample_store 2)) 2 false) []) (StoreUp false) 0 Health
    = route (mkSystem true (mkStore (docs (sample_store 2)) 2 true) []) 0 Health /\
  serve (mkSystem false (mkStore (docs (sample_store 2) ++ docs (sample_store 1)) 2 false) [])
        (StoreUp false) 0 Health
    = (mkSystem true (mkStore (docs (sample_store 2) ++ docs (sample_store 1)) 2 false) [], db_failed).
Proof.
  assert (Hnd : NoDup (map (field "email") (docs (mkStore (docs (sample_store 2)) 2 false))))
    by (vm_compute; repeat constructor; simpl; intuition discriminate).
  split; [reflexivity | split].
  - exact (proj2 (proj2 (proj2 (connect_outcomes (mkSystem false (mkStore (docs (sample_store 2)) 2 false) [])
                                  0 Health eq_refl))) Hnd).
  - apply (proj1 (proj2 (proj2 (connect_outcomes
             (mkSystem false (mkStore (docs (sample_store 2) ++ docs (sample_store 1)) 2 false) [])
             0 Health eq_refl)))); [reflexivity |].
    vm_compute; intro H; inversion H as [| ? ? Hn _]; apply Hn; simpl; tauto.
Defined.



(** ** Invariants kept *)

(** A connected system without the index, holding two entries, serves a
    new address: the entry is inserted and the invariant kept. *)
Lemma serve_preserves_invariant_witness :
  waitlist_invariant (coll (mkSystem true (mkStore (docs (sample_store 2)) 2 false) [])) /\
  status (snd (serve (mkSystem true (mkStore (docs (sample_store 2)) 2 false) []) StoreDown 1
                 (AddToWaitlist (JString "Ann@X.io") None None))) = 201%Z /\
  waitlist_invariant (coll (fst (serve (mkSystem true (mkStore (docs (sample_store 2)) 2 false) [])
                                  StoreDown 1 (AddToWaitlist (JString "Ann@X.io") None None)))).
Proof.
  assert (H : waitlist_invariant (coll (mkSystem true (mkStore (docs (sample_store 2)) 2 false) []))).
  { split.
    - vm_compute; repeat constructor; simpl; intuition discriminate.
    - repeat constructor; eexists; (split; [reflexivity | split; vm_compute; reflexivity]). }
  split; [exact H | split; [vm_compute; reflexivity |]].
  apply serve_preserves_invariant; exact H.
Defined.

(** The race with the index in place: two add requests for [a@b.co] both
    passed their pre-check on the empty collection; the first insertion
    lands, the second is refused with 11000 (a 409), and both steps keep
    the invariant. *)
Lemma step_preserves_with_index_witness :
  let doc := [("email", BString "a@b.co"); ("createdAt", BDate 1)] in
  let sys0 := mkSystem true (mkStore [] 0 true) [("a@b.co", doc); ("a@b.co", doc)] in
  let sys1 := mkSystem true (snd (add_insert (coll sys0) "a@b.co" doc)) [("a@b.co", doc)] in
  let sys2 := mkSystem true (snd (add_insert (coll sys1) "a@b.co" doc)) [] in
  system_invariant sys0 /\ email_unique (coll sys0) = true /\
  fst (add_insert (coll sys1) "a@b.co" doc) = fail 409 duplicate_message /\
  system_invariant sys2 /\ email_unique (coll sys2) = true.
Proof.
  intros doc sys0 sys1 sys2.
  assert (H0 : system_invariant sys0).
  { split; [split; simpl; constructor |].
    repeat constructor; vm_compute; reflexivity. }
  assert (Hs1 : step sys0 sys1) by exact (step_add_end sys0 [] "a@b.co" doc [("a@b.co", doc)] eq_refl).
  destruct (step_preserves_with_index sys0 sys1 H0 eq_refl Hs1) as [H1 Hu1].
  assert (Hs2 : step sys1 sys2) by exact (step_add_end sys1 [] "a@b.co" doc [] eq_refl).
  split; [exact H0 | split; [reflexivity | split; [vm_compute; reflexivity |]]].
  exact (step_preserves_with_index sys1 sys2 H1 Hu1 Hs2).
Defined.

(** ** Sanitising *)

Lemma trim_start_prefix (l : list ascii) : exists sp, sp ++ trim_start l = l.
Proof.
  induction l as [| c l [sp Hsp]]; simpl; [exists []; reflexivity |].
  destruct (is_space c); [exists (c :: sp); simpl; rewrite Hsp | exists []]; reflexivity.
Qed.

Lemma trim_start_head (l r : list ascii) (c : ascii) :
  trim_start l = c :: r -> is_space c = false.
Proof.
  induction l as [| x l IH]; simpl; [discriminate |].
  destruct (is_space x) eqn:Hx; [exact IH | intro H; injection H as <- _; exact Hx].
Qed.

Lemma trim_start_idem (l : list ascii) : trim_start (trim_start l) = trim_start l.
Proof.
  destruct (trim_start l) as [| c r] eqn:E; [reflexivity |].
  simpl; rewrite (trim_start_head l r c E); reflexivity.
Qed.

Lemma trim_idem (s : string) : trim (trim s) = trim s.
Proof.
  unfold trim at 1 2; rewrite list_ascii_of_string_of_list_ascii.
  set (m := trim_start (list_ascii_of_string s)).
  assert (Hm : trim_start (rev (trim_start (rev m))) = rev (trim_start (rev m))).
  { destruct (trim_start_prefix (rev m)) as [sp Hsp].
    assert (Hm' : m = rev (trim_start (rev m)) ++ rev sp)
      by (rewrite <- rev_app_distr, Hsp, rev_involutive; reflexivity).
    destruct (rev (trim_start (rev m))) as [| c r] eqn:E; [reflexivity |].
    simpl; rewrite (trim_start_head (list_ascii_of_string s) (r ++ rev sp) c Hm'); reflexivity. }
  rewrite Hm, rev_involutive, trim_start_idem; reflexivity.
Qed.

Lemma trim_start_lower (l : list ascii) :
  trim_start (map lower_char l) = map lower_char (trim_start l).
Proof.
  induction l as [| c l IH]; simpl; [reflexivity |].
  rewrite is_space_lower_char; destruct (is_space c); [exact IH | reflexivity].
Qed.

Lemma trim_toLowerCase (s : string) : trim (toLowerCase s) = toLowerCase (trim s).
Proof.
  unfold trim; rewrite toLowerCase_chars, trim_start_lower, <- map_rev, trim_start_lower,
    <- map_rev.
  unfold toLowerCase; rewrite list_ascii_of_string_of_list_ascii; reflexivity.
Qed.

(** Sanitising any string gives a normalised address, and sanitising that
    address again changes nothing. *)
Theorem sanitize_normalizes (email : js_value) (se : string) :
  sanitize email = Some se -> normalized se /\ sanitize (JString se) = Some se.
Proof.
  destruct email as [| | | s | |]; simpl; try discriminate.
  intro H; injection H as <-.
  assert (Hn : normalized (toLowerCase (trim s))).
  { split; [rewrite trim_toLowerCase, trim_idem; reflexivity | apply toLowerCase_idem]. }
  split; [exact Hn |].
  destruct Hn as [Ht Hl]; simpl; rewrite Ht, Hl; reflexivity.
Qed.

Lemma sanitize_normalizes_witness :
  sanitize (JString " 	Ann.Lee@Mail.COM  ") = Some "ann.lee@mail.com" /\
  normalized "ann.lee@mail.com".
Proof.
  assert (H : sanitize (JString " 	Ann.Lee@Mail.COM  ") = Some "ann.lee@mail.com")
    by (vm_compute; reflexivity).
  split; [exact H | exact (proj1 (sanitize_normalizes _ _ H))].
Defined.


(** A value that is not a string passes validation only as an array,
    whose [String(...)] joins the elements with commas: [['a@b.com']]
    reads as [a@b.com]. The handlers then call [trim] on the array, which
    throws a [TypeError]: the check answers 500 and the add request
    answers 500 without touching the store. *)
Theorem validated_non_string (s s_check s' : store) (email : js_value)
    (ip ua : option string) (now : nat) :
  validateEmail email = true -> (forall str, email <> JString str) ->
  (exists l, email = JArray l) /\
  handle_check s email = fail 500 "Failed to check email" /\
  handle_add s_check s' email ip ua now
    = (fail 500 "Internal server error. Please try again later.", s').
Proof.
  intros Hv Hs.
  assert (Hsan : sanitize email = None).
  { destruct email as [| | | str | |]; try reflexivity; exfalso; exact (Hs str eq_refl). }
  split.
  - destruct email as [| | b | str | l |];
      [| | destruct b | exfalso; exact (Hs str eq_refl) | exists l; reflexivity |];
      vm_compute in Hv; discriminate.
  - unfold handle_check, handle_add, add_precheck; rewrite Hv, Hsan; split; reflexivity.
Qed.

Lemma validated_non_string_witness :
  validateEmail (JArray [JString "a@b.com"]) = true /\
  handle_check empty_store (JArray [JString "a@b.com"]) = fail 500 "Failed to check email".
Proof.
  assert (Hv : validateEmail (JArray [JString "a@b.com"]) = true) by (vm_compute; reflexivity).
  split; [exact Hv |].
  refine (proj1 (proj2 (validated_non_string empty_store empty_store empty_store
                          (JArray [JString "a@b.com"]) None None 0 Hv _))).
  discriminate.
Defined.
